(** * enhanced_cordic.c: table-assisted CORDIC sine/cosine in fixed point

    A shallow embedding of [setup] and [cordic_sine_cosine] of
    enhanced_cordic.c, and the properties of the rotation engine that
    follow from its integer code.

    Conventions.
    - [int64_t] and [int32_t] values are integers of [Z]; every C operation
      that can leave the type's range is followed by [wrap64] (or [wrap32]),
      the two's-complement wrap-around.
    - [>>] on a signed value is the arithmetic shift [Z.shiftr]; [&] and [^]
      are [Z.land] and [Z.lxor].
    - An array read outside the array and a shift by a count outside
      [0, 64) are faults of the [result] type.
    - The two tables that [setup] fills through double-precision
      arithmetic ([angles], [initial]) are taken as the integers stored,
      given by [fangle] and [finit]; [shifts], the size of each table and
      the diagnostic test are integer code and are embedded as written. *)

From Stdlib Require Import ZArith List Lia Bool.
Import ListNotations.
Local Open Scope Z_scope.

(** ** Configuration (the #define lines) *)

Definition INDEX_BITS : Z := 11.
Definition CORDIC_BITS : Z := 19.
Definition INPUT_BITS : Z := 2 + INDEX_BITS + CORDIC_BITS.
Definition CORDIC_REPS : nat := 24.
Definition OUTPUT_SCALE : Z := Z.shiftl 1 31.
Definition OUTPUT_EXTRA_BITS : Z := 4.
Definition Z_EXTRA_BITS : Z := 2.
Definition FULL_CIRCLE : Z := Z.shiftl 1 INPUT_BITS.
Definition CORDIC_MASK : Z := Z.shiftl 1 CORDIC_BITS - 1.
Definition INDEX_MASK : Z := Z.shiftl (Z.shiftl 1 INDEX_BITS - 1) CORDIC_BITS.
Definition TABLE_SIZE : Z := Z.shiftl 1 INDEX_BITS.
Definition TARGET : Z := Z.shiftl 1 (CORDIC_BITS + Z_EXTRA_BITS - 1).

(** ** Machine integers *)

Definition wrap64 (v : Z) : Z := (v + 2 ^ 63) mod 2 ^ 64 - 2 ^ 63.
Definition wrap32 (v : Z) : Z := (v + 2 ^ 31) mod 2 ^ 32 - 2 ^ 31.

Definition in_int64 (v : Z) : Prop := - 2 ^ 63 <= v < 2 ^ 63.

(** ** Faults and the result monad *)

Inductive fault : Type :=
| OutOfBounds
| BadShift.

Inductive result (A : Type) : Type :=
| Ok (a : A)
| Fault (f : fault).

Arguments Ok {A} a.
Arguments Fault {A} f.

Definition bind {A B : Type} (r : result A) (k : A -> result B) : result B :=
  match r with
  | Ok a => k a
  | Fault f => Fault f
  end.

Notation "x <- e ;; k" := (bind e (fun x => k))
  (at level 61, e at next level, right associativity).

(** [a[i]] for a C array held as a list. *)
Definition read (a : list Z) (i : Z) : result Z :=
  if i <? 0 then Fault OutOfBounds
  else match nth_error a (Z.to_nat i) with
       | Some v => Ok v
       | None => Fault OutOfBounds
       end.

(** [v >> n] on an [int64_t]. *)
Definition sar (v n : Z) : result Z :=
  if (0 <=? n) && (n <? 64) then Ok (Z.shiftr v n) else Fault BadShift.

(** ** The tables and [setup] *)

Record tables : Type := mkTables {
  angles : list Z;
  shifts : list Z;
  initial : list Z
}.

(** What [setup] prints. The three [printf] of the closing note are the
    two bars and [MsgNote] between them. *)
Inductive setup_msg : Type :=
| MsgStart
| MsgAngle (i : nat) (v : Z)
| MsgBar
| MsgNote.

Definition setup_msg_is_note (m : setup_msg) : bool :=
  match m with
  | MsgNote => true
  | _ => false
  end.

(** The test that closes [setup]: [angles[0] == angles[CORDIC_REPS-1]]. *)
Definition diagnostic (a : list Z) : result (list setup_msg) :=
  a0 <- read a 0 ;;
  an <- read a (Z.of_nat CORDIC_REPS - 1) ;;
  Ok (if a0 =? an then [MsgBar; MsgNote; MsgBar] else []).

(** The tables [setup] leaves, with [fangle i] the integer stored in
    [angles[i]] (line 119) and [finit k] the integer stored in
    [initial[k]] (line 127). *)
Definition setup_tables (fangle finit : nat -> Z) : tables :=
  {| angles := map fangle (seq 0 CORDIC_REPS);
     shifts := map (fun i => wrap32 (INDEX_BITS + Z.of_nat i)) (seq 0 CORDIC_REPS);
     initial := map finit (seq 0 (Z.to_nat TABLE_SIZE)) |}.

(** [setup]: the tables and what is printed. *)
Definition setup (fangle finit : nat -> Z) : result (tables * list setup_msg) :=
  let t := setup_tables fangle finit in
  note <- diagnostic (angles t) ;;
  Ok (t, MsgStart :: map (fun i => MsgAngle i (fangle i)) (seq 0 CORDIC_REPS) ++ note).

Definition signal_count (out : list setup_msg) : nat :=
  length (filter setup_msg_is_note out).

(** ** [cordic_sine_cosine] *)

Record state : Type := mkState { sx : Z; sy : Z; sz : Z }.

(** A line of the trace printed when [show] is set. *)
Inductive out_line : Type :=
| Header
| Row (y x z : Z).

Definition quadrant_bit1 (z : Z) : Z :=
  Z.land (Z.shiftr z (CORDIC_BITS + INDEX_BITS + 1)) 1.

Definition quadrant_bit0 (z : Z) : Z :=
  Z.land (Z.shiftr z (CORDIC_BITS + INDEX_BITS)) 1.

Definition index_of (z : Z) : Z :=
  Z.shiftr (Z.land z INDEX_MASK) CORDIC_BITS.

Definition residual_of (z : Z) : Z :=
  wrap64 (Z.shiftl (Z.land z CORDIC_MASK) Z_EXTRA_BITS).

Definition flip_sin_sign (z : Z) : Z := quadrant_bit1 z.
Definition flip_cos_sign (z : Z) : Z := Z.lxor (quadrant_bit1 z) (quadrant_bit0 z).

(** Lines 155-156: the residual folded when [quadrant_bit0] is set. *)
Definition fold_residual (q0 r : Z) : Z :=
  if q0 =? 0 then r
  else wrap64 (Z.shiftl 1 (CORDIC_BITS + Z_EXTRA_BITS) - r).

(** Lines 146-168: the state the loop starts from. *)
Definition cordic_start (t : tables) (z : Z) : result state :=
  let q0 := quadrant_bit0 z in
  let index := index_of z in
  let z1 := wrap64 (fold_residual q0 (residual_of z) - TARGET) in
  if q0 =? 0 then
    x <- read (initial t) (TABLE_SIZE - 1 - index) ;;
    y <- read (initial t) index ;;
    Ok (mkState x y z1)
  else
    x <- read (initial t) index ;;
    y <- read (initial t) (TABLE_SIZE - 1 - index) ;;
    Ok (mkState x y z1).

(** Lines 176-182: one pass of the loop body. *)
Definition cordic_step (t : tables) (i : nat) (st : state) : result state :=
  sh <- read (shifts t) (Z.of_nat i) ;;
  tx <- sar (sx st) sh ;;
  ty <- sar (sy st) sh ;;
  let neg := sz st <? 0 in
  let x := wrap64 (sx st - (if neg then wrap64 (- ty) else ty)) in
  let y := wrap64 (sy st + (if neg then wrap64 (- tx) else tx)) in
  an <- read (angles t) (Z.of_nat i) ;;
  let z := wrap64 (sz st + (if neg then an else wrap32 (- an))) in
  Ok (mkState x y (wrap64 (Z.shiftl z 1))).

Definition trace_row (show : bool) (st : state) : list out_line :=
  if show then [Row (sy st) (sx st) (sz st)] else [].

(** The loop of lines 175-187 over the indices [idx]. *)
Fixpoint cordic_loop (t : tables) (show : bool) (idx : list nat) (st : state)
  : result (state * list out_line) :=
  match idx with
  | [] => Ok (st, [])
  | i :: rest =>
      st1 <- cordic_step t i st ;;
      r <- cordic_loop t show rest st1 ;;
      Ok (fst r, trace_row show st1 ++ snd r)
  end.

(** Lines 188-189: the sign flip, then the guard bits shifted out. *)
Definition pre_shift (flip v : Z) : Z :=
  if flip =? 0 then v else wrap64 (- v).

Definition finish (flip v : Z) : Z :=
  Z.shiftr (pre_shift flip v) OUTPUT_EXTRA_BITS.

(** The answer of [cordic_sine_cosine]: [*s], [*c] and the lines printed. *)
Record answer : Type := mkAnswer {
  sin_value : Z;
  cos_value : Z;
  printed : list out_line
}.

(** The accumulators after the first [n] passes of the loop. *)
Definition cordic_prefix (t : tables) (z : Z) (n : nat) : result state :=
  st0 <- cordic_start t z ;;
  r <- cordic_loop t false (seq 0 n) st0 ;;
  Ok (fst r).

Definition cordic_sine_cosine (t : tables) (z : Z) (show : bool) : result answer :=
  st0 <- cordic_start t z ;;
  r <- cordic_loop t show (seq 0 CORDIC_REPS) st0 ;;
  let st := fst r in
  Ok {| sin_value := finish (flip_sin_sign z) (sy st);
        cos_value := finish (flip_cos_sign z) (sx st);
        printed := (if show then [Header] else []) ++ trace_row show st0 ++ snd r |}.

(** The two outputs, without the trace. *)
Definition values (r : result answer) : result (Z * Z) :=
  a <- r ;; Ok (sin_value a, cos_value a).

(** ** The specification's wording, for comparison *)

(** Section 4.2, steps 1, 3, 4 and 5: the fields of the phase, most
    significant first, the folded residual, the target offset and the
    starting vector. *)
Definition spec_quadrant_bit1 (phase : Z) : bool :=
  Z.testbit phase (INPUT_BITS - 1).

Definition spec_quadrant_bit0 (phase : Z) : bool :=
  Z.testbit phase (INPUT_BITS - 2).

Definition spec_index (phase : Z) : Z :=
  (phase / 2 ^ CORDIC_BITS) mod 2 ^ INDEX_BITS.

Definition spec_residual (phase : Z) : Z :=
  (phase mod 2 ^ CORDIC_BITS) * 2 ^ Z_EXTRA_BITS.

Definition spec_folded (phase : Z) : Z :=
  if spec_quadrant_bit0 phase
  then 2 ^ (CORDIC_BITS + Z_EXTRA_BITS) - spec_residual phase
  else spec_residual phase.

Definition spec_start (lookup_table : list Z) (phase : Z) : result state :=
  let table_size := 2 ^ INDEX_BITS in
  let index := spec_index phase in
  let z := spec_folded phase - 2 ^ (CORDIC_BITS + Z_EXTRA_BITS - 1) in
  if spec_quadrant_bit0 phase then
    x <- read lookup_table index ;;
    y <- read lookup_table (table_size - 1 - index) ;;
    Ok (mkState x y z)
  else
    x <- read lookup_table (table_size - 1 - index) ;;
    y <- read lookup_table index ;;
    Ok (mkState x y z).

(** Section 4.2, step 6, the formal clause: one iteration on unbounded
    integers. *)
Definition sign (z : Z) : Z := if z <? 0 then -1 else 1.

Definition spec_step (rotation shift : Z) (st : state) : state :=
  let tx := Z.shiftr (sx st) shift in
  let ty := Z.shiftr (sy st) shift in
  let x := sx st - sign (sz st) * ty in
  let y := sy st + sign (sz st) * tx in
  let z := if 0 <=? sz st then sz st - rotation else sz st + rotation in
  mkState x y (2 * z).

(** The rotation on unbounded integers over the loop indices [idx], with
    the shift [INDEX_BITS + i] of line 120. *)
Definition spec_loop (fangle : nat -> Z) (idx : list nat) (st : state) : state :=
  fold_left (fun s i => spec_step (fangle i) (INDEX_BITS + Z.of_nat i) s) idx st.

(** ** Ranges of the stored tables *)

(** Every entry of [angles] is an [int32_t] whose negation is one too. *)
Definition angles_in_range (fangle : nat -> Z) : Prop :=
  forall i, (i < CORDIC_REPS)%nat -> - 2 ^ 31 < fangle i < 2 ^ 31.

(** Every entry of [initial] is within [table_magnitude] of line 124, at
    most [OUTPUT_SCALE * 2 ^ OUTPUT_EXTRA_BITS]. *)
Definition initial_in_range (finit : nat -> Z) : Prop :=
  forall k, (k < Z.to_nat TABLE_SIZE)%nat ->
            Z.abs (finit k) <= OUTPUT_SCALE * 2 ^ OUTPUT_EXTRA_BITS.

(** Accumulators within [bx] and an angle accumulator within
    [cz - 2 ^ 32]. *)
Definition bounded (bx cz : Z) (st : state) : Prop :=
  Z.abs (sx st) <= bx /\ Z.abs (sy st) <= bx /\ Z.abs (sz st) <= cz - 2 ^ 32.

(** ** The closing note of [setup] *)

Definition all_identical (a : list Z) : Prop :=
  forall i j v w, nth_error a i = Some v -> nth_error a j = Some w -> v = w.

Definition non_decreasing (a : list Z) : Prop :=
  forall i j v w,
    (i <= j)%nat -> nth_error a i = Some v -> nth_error a j = Some w -> v <= w.

(** A table that grows by one from each entry to the next. *)
Definition rising_angles (i : nat) : Z := 1335089 + Z.of_nat i.

(** The three arrays at the sizes of their declarations (lines 96-98). *)
Definition well_sized (t : tables) : Prop :=
  length (angles t) = CORDIC_REPS /\
  length (shifts t) = CORDIC_REPS /\
  length (initial t) = Z.to_nat TABLE_SIZE.

(** The phase half a circle further. *)
Definition half_turn (phase : Z) : Z :=
  (phase + FULL_CIRCLE / 2) mod FULL_CIRCLE.

(** ** Sample tables *)

(** Stored values of the right sizes and ranges to run the code on: every
    rotation angle at 1335089 and a ramp for the starting vector. *)
Definition sample_angles (i : nat) : Z := 1335089.
Definition sample_initial (k : nat) : Z := 16777216 * Z.of_nat k + 8388600.
Definition sample_tables : tables := setup_tables sample_angles sample_initial.

(** A ramp that starts at zero. *)
Definition low_ramp (k : nat) : Z := 16 * Z.of_nat k.

(** ** Phases related by a symmetry of the circle *)

(** The phase of the opposite angle, and of the angle mirrored in the
    quarter circle. *)
Definition neg_phase (phase : Z) : Z := (- phase) mod FULL_CIRCLE.

Definition mirror_phase (phase : Z) : Z := (FULL_CIRCLE / 2 - phase) mod FULL_CIRCLE.

(** The phase with the given quadrant bits, index and residual bits. *)
Definition compose_phase (q1 q0 index low : Z) : Z :=
  q1 * 2 ^ (CORDIC_BITS + INDEX_BITS + 1) +
  q0 * 2 ^ (CORDIC_BITS + INDEX_BITS) +
  index * 2 ^ CORDIC_BITS + low.

(** The phase a quarter circle further, and a state with [x] and [y]
    exchanged and the angle negated. *)
Definition quarter_turn (phase : Z) : Z :=
  (phase + FULL_CIRCLE / 4) mod FULL_CIRCLE.

Definition swap_state (st : state) : state :=
  {| sx := sy st; sy := sx st; sz := - sz st |}.

(** The line printed for a state of the loop (lines 172 and 185). *)
Definition row_of (st : state) : out_line := Row (sy st) (sx st) (sz st).

(** One output of a call. *)
Definition rsin (r : result answer) : result Z := a <- r ;; Ok (sin_value a).
Definition rcos (r : result answer) : result Z := a <- r ;; Ok (cos_value a).

(** ** The whole call on unbounded integers *)

(** Section 4.2, steps 1 to 7, with the flips read from the two top bits
    of the phase and the guard bits dropped by a floor division. *)
Definition spec_sine_cosine (fangle : nat -> Z) (lookup_table : list Z) (phase : Z)
  : result (Z * Z) :=
  st0 <- spec_start lookup_table phase ;;
  let st := spec_loop fangle (seq 0 CORDIC_REPS) st0 in
  let flip_sin := Z.testbit phase (INPUT_BITS - 1) in
  let flip_cos := xorb (Z.testbit phase (INPUT_BITS - 1))
                       (Z.testbit phase (INPUT_BITS - 2)) in
  Ok ((if flip_sin then - sy st else sy st) / 2 ^ OUTPUT_EXTRA_BITS,
      (if flip_cos then - sx st else sx st) / 2 ^ OUTPUT_EXTRA_BITS).

(** ** Width of the accumulators *)

(** A bound on [x] and [y] after [n] passes from a vector within
    [OUTPUT_SCALE * 2 ^ OUTPUT_EXTRA_BITS]: pass [i] adds at most the
    bound shifted right by [INDEX_BITS + i], and one. *)
Definition acc_bound (n : nat) : Z :=
  fold_left (fun b i => b + Z.shiftr b (INDEX_BITS + Z.of_nat i) + 1)
            (seq 0 n) (OUTPUT_SCALE * 2 ^ OUTPUT_EXTRA_BITS).

(** What a traced call on the sample tables returns and prints. *)
Definition sample_traced_answer : answer :=
  Eval vm_compute in
    match cordic_sine_cosine sample_tables 123456789 true with
    | Ok a => a
    | Fault _ => mkAnswer 0 0 []
    end.

(** * Properties *)

(** ** Machine integers *)

Lemma wrap64_id (v : Z) : in_int64 v -> wrap64 v = v.
Proof.
  unfold in_int64, wrap64. intros H.
  rewrite Z.mod_small by lia. lia.
Qed.

Lemma wrap64_range (v : Z) : in_int64 (wrap64 v).
Proof.
  unfold in_int64, wrap64.
  pose proof (Z.mod_pos_bound (v + 2 ^ 63) (2 ^ 64)). lia.
Qed.

Lemma wrap32_id (v : Z) : - 2 ^ 31 <= v < 2 ^ 31 -> wrap32 v = v.
Proof.
  unfold wrap32. intros H.
  rewrite Z.mod_small by lia. lia.
Qed.

Lemma wrap32_range (v : Z) : - 2 ^ 31 <= wrap32 v < 2 ^ 31.
Proof.
  unfold wrap32.
  pose proof (Z.mod_pos_bound (v + 2 ^ 31) (2 ^ 32)). lia.
Qed.

(** An arithmetic right shift never grows the magnitude. *)
Lemma shiftr_abs_le (v n : Z) : 0 <= n -> Z.abs (Z.shiftr v n) <= Z.abs v.
Proof.
  intros Hn. rewrite Z.shiftr_div_pow2 by assumption.
  assert (Hp : 0 < 2 ^ n) by (apply Z.pow_pos_nonneg; lia).
  destruct (Z_lt_le_dec v 0) as [Hv | Hv].
  - assert (v <= v / 2 ^ n).
    { apply Z.div_le_lower_bound; nia. }
    assert (v / 2 ^ n < 0) by (apply Z.div_lt_upper_bound; lia).
    lia.
  - assert (0 <= v / 2 ^ n) by (apply Z.div_pos; lia).
    assert (v / 2 ^ n <= v).
    { apply Z.div_le_upper_bound; nia. }
    lia.
Qed.

(** ** The fields of the phase *)

Lemma quadrant_bit1_spec (z : Z) : quadrant_bit1 z = (z / 2 ^ 31) mod 2.
Proof.
  unfold quadrant_bit1. change (CORDIC_BITS + INDEX_BITS + 1) with 31.
  change (Z.land (Z.shiftr z 31) 1) with (Z.land (Z.shiftr z 31) (Z.ones 1)).
  rewrite Z.land_ones by lia.
  rewrite Z.shiftr_div_pow2 by lia. reflexivity.
Qed.

Lemma quadrant_bit0_spec (z : Z) : quadrant_bit0 z = (z / 2 ^ 30) mod 2.
Proof.
  unfold quadrant_bit0. change (CORDIC_BITS + INDEX_BITS) with 30.
  change (Z.land (Z.shiftr z 30) 1) with (Z.land (Z.shiftr z 30) (Z.ones 1)).
  rewrite Z.land_ones by lia.
  rewrite Z.shiftr_div_pow2 by lia. reflexivity.
Qed.

Lemma index_of_spec (z : Z) : index_of z = (z / 2 ^ 19) mod 2 ^ 11.
Proof.
  unfold index_of, INDEX_MASK, CORDIC_BITS, INDEX_BITS.
  rewrite Z.shiftr_land.
  change (Z.shiftr (Z.shiftl (Z.shiftl 1 11 - 1) 19) 19) with (Z.ones 11).
  rewrite Z.land_ones by lia.
  rewrite Z.shiftr_div_pow2 by lia. reflexivity.
Qed.

Lemma residual_of_spec (z : Z) : residual_of z = (z mod 2 ^ 19) * 2 ^ 2.
Proof.
  unfold residual_of, CORDIC_MASK, CORDIC_BITS, Z_EXTRA_BITS.
  change (Z.shiftl 1 19 - 1) with (Z.ones 19).
  rewrite Z.land_ones by lia.
  rewrite Z.shiftl_mul_pow2 by lia.
  pose proof (Z.mod_pos_bound z (2 ^ 19)).
  apply wrap64_id. unfold in_int64. lia.
Qed.

Lemma quadrant_bit1_range (z : Z) : quadrant_bit1 z = 0 \/ quadrant_bit1 z = 1.
Proof.
  rewrite quadrant_bit1_spec.
  pose proof (Z.mod_pos_bound (z / 2 ^ 31) 2). lia.
Qed.

Lemma quadrant_bit0_range (z : Z) : quadrant_bit0 z = 0 \/ quadrant_bit0 z = 1.
Proof.
  rewrite quadrant_bit0_spec.
  pose proof (Z.mod_pos_bound (z / 2 ^ 30) 2). lia.
Qed.

Lemma index_of_range (z : Z) : 0 <= index_of z < TABLE_SIZE.
Proof.
  rewrite index_of_spec. change TABLE_SIZE with (2 ^ 11).
  apply Z.mod_pos_bound. lia.
Qed.

Lemma residual_of_range (z : Z) : 0 <= residual_of z <= 2 ^ 21 - 4.
Proof.
  rewrite residual_of_spec.
  pose proof (Z.mod_pos_bound z (2 ^ 19)). lia.
Qed.

(** A field of the low [INPUT_BITS] bits is a field of the phase reduced
    modulo [2 ^ INPUT_BITS]. *)
Lemma field_mod_full (p k m : Z) :
  0 <= k -> 0 <= m -> k + m <= 32 ->
  ((p mod 2 ^ 32) / 2 ^ k) mod 2 ^ m = (p / 2 ^ k) mod 2 ^ m.
Proof.
  intros Hk Hm Hkm.
  rewrite <- !Z.shiftr_div_pow2 by assumption.
  rewrite <- !Z.land_ones by lia.
  apply Z.bits_inj'. intros n Hn.
  rewrite !Z.land_spec, !Z.shiftr_spec, !Z.land_spec by assumption.
  rewrite !Z.testbit_ones_nonneg by lia.
  destruct (Z.leb_spec 0 n), (Z.ltb_spec n m), (Z.leb_spec 0 (n + k)),
    (Z.ltb_spec (n + k) 32); simpl; try lia;
    destruct (Z.testbit p (n + k)); reflexivity.
Qed.

(** ** Reading the tables *)

Lemma read_in_bounds (a : list Z) (i : Z) :
  0 <= i < Z.of_nat (length a) -> exists v, read a i = Ok v.
Proof.
  intros [Hlo Hhi]. unfold read.
  destruct (Z.ltb_spec i 0) as [H | _]; [lia |].
  destruct (nth_error a (Z.to_nat i)) as [v | ] eqn:E; [eauto |].
  apply nth_error_None in E. lia.
Qed.

Lemma read_map_seq (f : nat -> Z) (n i : nat) :
  (i < n)%nat -> read (map f (seq 0 n)) (Z.of_nat i) = Ok (f i).
Proof.
  intros Hi. unfold read.
  destruct (Z.ltb_spec (Z.of_nat i) 0) as [H | _]; [lia |].
  rewrite Nat2Z.id, nth_error_map.
  rewrite (nth_error_nth' _ 0%nat) by (rewrite length_seq; exact Hi).
  rewrite seq_nth by exact Hi. reflexivity.
Qed.

Lemma read_map_seq_Z (f : nat -> Z) (n : nat) (k : Z) :
  0 <= k < Z.of_nat n -> read (map f (seq 0 n)) k = Ok (f (Z.to_nat k)).
Proof.
  intros Hk. rewrite <- (Z2Nat.id k) at 1 by lia.
  apply read_map_seq. lia.
Qed.

Lemma setup_tables_well_sized (fangle finit : nat -> Z) :
  well_sized (setup_tables fangle finit).
Proof.
  unfold well_sized, setup_tables; cbn [angles shifts initial].
  rewrite !length_map, !length_seq. auto.
Qed.

(** ** No read outside a table *)

Lemma initial_size (t : tables) :
  well_sized t -> Z.of_nat (length (initial t)) = TABLE_SIZE.
Proof.
  intros (_ & _ & H). rewrite H. apply Z2Nat.id. discriminate.
Qed.

Lemma cordic_start_total (t : tables) (z : Z) :
  well_sized t -> exists st, cordic_start t z = Ok st.
Proof.
  intros Hw. pose proof (index_of_range z) as Hi.
  pose proof (initial_size t Hw) as Hn.
  destruct (read_in_bounds (initial t) (index_of z)) as [a Ha]; [lia |].
  destruct (read_in_bounds (initial t) (TABLE_SIZE - 1 - index_of z)) as [b Hb]; [lia |].
  unfold cordic_start.
  destruct (quadrant_bit0 z =? 0); rewrite Ha, Hb; cbn [bind]; eauto.
Qed.

Lemma cordic_step_in_bounds (t : tables) (i : nat) (st : state) :
  well_sized t -> (i < CORDIC_REPS)%nat ->
  cordic_step t i st <> Fault OutOfBounds.
Proof.
  intros (Ha & Hs & _) Hi. unfold cordic_step.
  destruct (read_in_bounds (shifts t) (Z.of_nat i)) as [sh Hsh]; [lia |].
  destruct (read_in_bounds (angles t) (Z.of_nat i)) as [an Han]; [lia |].
  rewrite Hsh; cbn [bind]. unfold sar.
  destruct ((0 <=? sh) && (sh <? 64)); cbn [bind]; [| discriminate].
  rewrite Han; cbn [bind]. discriminate.
Qed.

Lemma cordic_loop_in_bounds (t : tables) (show : bool) (idx : list nat) :
  well_sized t -> Forall (fun i => (i < CORDIC_REPS)%nat) idx ->
  forall st, cordic_loop t show idx st <> Fault OutOfBounds.
Proof.
  intros Hw Hidx. induction Hidx as [| i rest Hi _ IH]; intros st; cbn [cordic_loop].
  - discriminate.
  - pose proof (cordic_step_in_bounds t i st Hw Hi) as Hstep.
    destruct (cordic_step t i st) as [st1 | f]; cbn [bind].
    + specialize (IH st1).
      destruct (cordic_loop t show rest st1) as [r | f]; cbn [bind];
        [discriminate | exact IH].
    + intros E. apply Hstep. injection E as ->. reflexivity.
Qed.

Lemma loop_indices_in_range :
  Forall (fun i => (i < CORDIC_REPS)%nat) (seq 0 CORDIC_REPS).
Proof.
  apply Forall_forall. intros i Hi. apply in_seq in Hi. lia.
Qed.

(** C10: with the three arrays at their declared sizes, the index taken
    from any phase of [0, FULL_CIRCLE) addresses [initial] both directly
    and mirrored, every loop index is below [CORDIC_REPS], and no read of
    [cordic_sine_cosine] falls outside its array. *)
Theorem C10_reads_in_bounds (t : tables) (phase : Z) (show : bool) :
  well_sized t ->
  0 <= phase < FULL_CIRCLE ->
  0 <= index_of phase < Z.of_nat (length (initial t)) /\
  0 <= TABLE_SIZE - 1 - index_of phase < Z.of_nat (length (initial t)) /\
  Forall (fun i => (i < length (shifts t))%nat /\ (i < length (angles t))%nat)
         (seq 0 CORDIC_REPS) /\
  cordic_sine_cosine t phase show <> Fault OutOfBounds.
Proof.
  intros Hw _. pose proof (index_of_range phase) as Hi.
  rewrite (initial_size t Hw).
  repeat split; try lia.
  - destruct Hw as (Ha & Hs & _). rewrite Ha, Hs.
    apply Forall_forall. intros i H. apply in_seq in H. lia.
  - unfold cordic_sine_cosine.
    destruct (cordic_start_total t phase Hw) as [st0 Hst0]. rewrite Hst0; cbn [bind].
    pose proof (cordic_loop_in_bounds t show _ Hw loop_indices_in_range st0) as Hl.
    destruct (cordic_loop t show (seq 0 CORDIC_REPS) st0) as [r | f]; cbn [bind];
      [discriminate |].
    intros E. apply Hl. injection E as ->. reflexivity.
Qed.

(** ** The trace flag *)

Lemma cordic_loop_state_show (t : tables) (show : bool) (idx : list nat) :
  forall st,
    (r <- cordic_loop t show idx st ;; Ok (fst r)) =
    (r <- cordic_loop t false idx st ;; Ok (fst r)).
Proof.
  induction idx as [| i rest IH]; intros st; cbn [cordic_loop].
  - reflexivity.
  - destruct (cordic_step t i st) as [st1 | f]; cbn [bind]; [| reflexivity].
    specialize (IH st1).
    destruct (cordic_loop t show rest st1) as [r1 | f1];
      destruct (cordic_loop t false rest st1) as [r2 | f2];
      cbn [bind fst] in *; congruence.
Qed.

Lemma cordic_loop_silent (t : tables) (idx : list nat) :
  forall st r, cordic_loop t false idx st = Ok r -> snd r = [].
Proof.
  induction idx as [| i rest IH]; intros st r; cbn [cordic_loop].
  - intros H. injection H as <-. reflexivity.
  - destruct (cordic_step t i st) as [st1 | f]; cbn [bind]; [| discriminate].
    destruct (cordic_loop t false rest st1) as [r1 | f1] eqn:E; cbn [bind];
      [| discriminate].
    intros H. injection H as <-. cbn [snd trace_row app]. eauto.
Qed.

(** The two outputs are the flipped and shifted accumulators left by the
    [CORDIC_REPS] passes, whatever [show] is. *)
Lemma values_cordic_sine_cosine (t : tables) (z : Z) (show : bool) :
  values (cordic_sine_cosine t z show) =
  st <- cordic_prefix t z CORDIC_REPS ;;
  Ok (finish (flip_sin_sign z) (sy st), finish (flip_cos_sign z) (sx st)).
Proof.
  unfold values, cordic_sine_cosine, cordic_prefix.
  destruct (cordic_start t z) as [st0 | f]; cbn [bind]; [| reflexivity].
  pose proof (cordic_loop_state_show t show (seq 0 CORDIC_REPS) st0) as H.
  destruct (cordic_loop t show (seq 0 CORDIC_REPS) st0) as [r1 | f1];
    destruct (cordic_loop t false (seq 0 CORDIC_REPS) st0) as [r2 | f2];
    cbn [bind fst sin_value cos_value] in *; congruence.
Qed.

(** C9: the outputs of [cordic_sine_cosine] are a function of the tables
    and the phase alone: two calls on the same phase, with [show] set or
    not in either, give the same [sin_value] and [cos_value]; in
    particular the outputs with [show = 1] are those with [show = 0], and
    nothing is printed when [show] is 0. *)
Theorem C9_deterministic_trace_inert (t : tables) (phase : Z) (show1 show2 : bool) :
  values (cordic_sine_cosine t phase show1) =
  values (cordic_sine_cosine t phase show2) /\
  values (cordic_sine_cosine t phase true) =
  values (cordic_sine_cosine t phase false) /\
  (forall a, cordic_sine_cosine t phase false = Ok a -> printed a = []).
Proof.
  split; [| split].
  - rewrite !values_cordic_sine_cosine. reflexivity.
  - rewrite !values_cordic_sine_cosine. reflexivity.
  - intros a. unfold cordic_sine_cosine.
    destruct (cordic_start t phase) as [st0 | f]; cbn [bind]; [| discriminate].
    destruct (cordic_loop t false (seq 0 CORDIC_REPS) st0) as [r | f] eqn:E;
      cbn [bind]; [| discriminate].
    intros H. injection H as <-. cbn [printed trace_row app].
    exact (cordic_loop_silent t _ st0 r E).
Qed.

(** ** The phase is read modulo [2 ^ INPUT_BITS] *)

Lemma quadrant_bit1_mod (p : Z) : quadrant_bit1 (p mod 2 ^ 32) = quadrant_bit1 p.
Proof.
  rewrite !quadrant_bit1_spec. exact (field_mod_full p 31 1 ltac:(lia) ltac:(lia) ltac:(lia)).
Qed.

Lemma quadrant_bit0_mod (p : Z) : quadrant_bit0 (p mod 2 ^ 32) = quadrant_bit0 p.
Proof.
  rewrite !quadrant_bit0_spec. exact (field_mod_full p 30 1 ltac:(lia) ltac:(lia) ltac:(lia)).
Qed.

Lemma index_of_mod (p : Z) : index_of (p mod 2 ^ 32) = index_of p.
Proof.
  rewrite !index_of_spec. exact (field_mod_full p 19 11 ltac:(lia) ltac:(lia) ltac:(lia)).
Qed.

Lemma residual_of_mod (p : Z) : residual_of (p mod 2 ^ 32) = residual_of p.
Proof.
  rewrite !residual_of_spec. f_equal.
  pose proof (field_mod_full p 0 19 ltac:(lia) ltac:(lia) ltac:(lia)) as H.
  change (2 ^ 0) with 1 in H. rewrite !Z.div_1_r in H. exact H.
Qed.

Lemma cordic_sine_cosine_mod (t : tables) (p : Z) (show : bool) :
  cordic_sine_cosine t (p mod 2 ^ INPUT_BITS) show = cordic_sine_cosine t p show.
Proof.
  change (2 ^ INPUT_BITS) with (2 ^ 32).
  unfold cordic_sine_cosine, cordic_start, flip_sin_sign, flip_cos_sign.
  rewrite quadrant_bit1_mod, quadrant_bit0_mod, index_of_mod, residual_of_mod.
  reflexivity.
Qed.

(** C8: for every non-negative 64-bit phase [p], [cordic_sine_cosine]
    returns at [p] what it returns at [p mod 2 ^ INPUT_BITS]: the two
    quadrant bits, the index and the residual are read from the low
    [INPUT_BITS] bits only. *)
Theorem C8_phase_modulo_input_bits (t : tables) (p : Z) (show : bool) :
  0 <= p < 2 ^ 63 ->
  cordic_sine_cosine t p show = cordic_sine_cosine t (p mod 2 ^ INPUT_BITS) show /\
  quadrant_bit1 p = quadrant_bit1 (p mod 2 ^ INPUT_BITS) /\
  quadrant_bit0 p = quadrant_bit0 (p mod 2 ^ INPUT_BITS) /\
  index_of p = index_of (p mod 2 ^ INPUT_BITS) /\
  residual_of p = residual_of (p mod 2 ^ INPUT_BITS).
Proof.
  intros _. rewrite cordic_sine_cosine_mod.
  change (2 ^ INPUT_BITS) with (2 ^ 32).
  rewrite quadrant_bit1_mod, quadrant_bit0_mod, index_of_mod, residual_of_mod.
  repeat split.
Qed.

(** ** Decomposition, folding and the starting vector *)

Lemma quadrant_bit0_testbit (z : Z) :
  (quadrant_bit0 z =? 0) = negb (Z.testbit z 30).
Proof.
  rewrite quadrant_bit0_spec.
  rewrite <- Z.shiftr_div_pow2 by lia.
  rewrite <- Z.bit0_mod, Z.shiftr_spec by lia.
  change (0 + 30) with 30.
  destruct (Z.testbit z 30); reflexivity.
Qed.

Lemma fold_residual_spec (phase : Z) :
  fold_residual (quadrant_bit0 phase) (residual_of phase) = spec_folded phase.
Proof.
  unfold fold_residual, spec_folded, spec_quadrant_bit0, spec_residual.
  rewrite quadrant_bit0_testbit, residual_of_spec.
  change (INPUT_BITS - 2) with 30.
  change (Z.shiftl 1 (CORDIC_BITS + Z_EXTRA_BITS)) with (2 ^ 21).
  change (CORDIC_BITS + Z_EXTRA_BITS) with 21.
  change CORDIC_BITS with 19. change Z_EXTRA_BITS with 2.
  pose proof (Z.mod_pos_bound phase (2 ^ 19)).
  destruct (Z.testbit phase 30); cbn [negb]; [| reflexivity].
  apply wrap64_id. unfold in_int64. lia.
Qed.

Lemma spec_folded_range (phase : Z) : 0 <= spec_folded phase <= 2 ^ 21.
Proof.
  unfold spec_folded, spec_residual.
  change (CORDIC_BITS + Z_EXTRA_BITS) with 21.
  change CORDIC_BITS with 19. change Z_EXTRA_BITS with 2.
  pose proof (Z.mod_pos_bound phase (2 ^ 19)).
  destruct (spec_quadrant_bit0 phase); lia.
Qed.

Lemma cordic_start_spec (t : tables) (phase : Z) :
  cordic_start t phase = spec_start (initial t) phase.
Proof.
  unfold cordic_start, spec_start.
  rewrite fold_residual_spec, quadrant_bit0_testbit.
  unfold spec_quadrant_bit0 at 1. change (INPUT_BITS - 2) with 30.
  rewrite index_of_spec. fold (spec_index phase).
  change (2 ^ INDEX_BITS) with TABLE_SIZE.
  change (2 ^ (CORDIC_BITS + Z_EXTRA_BITS - 1)) with TARGET.
  pose proof (spec_folded_range phase) as Hr.
  rewrite (wrap64_id (spec_folded phase - TARGET))
    by (unfold in_int64; change TARGET with (2 ^ 20); lia).
  destruct (Z.testbit phase 30); reflexivity.
Qed.

Lemma quadrant_bit1_b2z (z : Z) :
  quadrant_bit1 z = Z.b2z (spec_quadrant_bit1 z).
Proof.
  rewrite quadrant_bit1_spec. unfold spec_quadrant_bit1.
  change (INPUT_BITS - 1) with 31.
  rewrite <- Z.shiftr_div_pow2 by lia.
  rewrite <- Z.bit0_mod, Z.shiftr_spec by lia.
  reflexivity.
Qed.

Lemma quadrant_bit0_b2z (z : Z) :
  quadrant_bit0 z = Z.b2z (spec_quadrant_bit0 z).
Proof.
  rewrite quadrant_bit0_spec. unfold spec_quadrant_bit0.
  change (INPUT_BITS - 2) with 30.
  rewrite <- Z.shiftr_div_pow2 by lia.
  rewrite <- Z.bit0_mod, Z.shiftr_spec by lia.
  reflexivity.
Qed.

(** C5: for every phase, the decomposition and the state the loop starts
    from are the ones the specification words. The two quadrant bits are
    the top two bits of the phase, [quadrant_bit1] bit [INPUT_BITS - 1]
    and [quadrant_bit0] bit [INPUT_BITS - 2]; the index is bits 19..29
    and the residual the low 19 bits shifted left by [Z_EXTRA_BITS]. With
    quadrant bit 0 set, the residual is folded to
    [2 ^ (CORDIC_BITS + Z_EXTRA_BITS) - residual] and [x = initial[index]],
    [y = initial[TABLE_SIZE - 1 - index]]; with it clear, the residual is
    kept, [x = initial[TABLE_SIZE - 1 - index]] and [y = initial[index]]. *)
Theorem C5_decompose_fold_start (t : tables) (phase : Z) :
  quadrant_bit1 phase = Z.b2z (spec_quadrant_bit1 phase) /\
  quadrant_bit0 phase = Z.b2z (spec_quadrant_bit0 phase) /\
  index_of phase = spec_index phase /\
  residual_of phase = spec_residual phase /\
  fold_residual (quadrant_bit0 phase) (residual_of phase) = spec_folded phase /\
  cordic_start t phase = spec_start (initial t) phase.
Proof.
  split; [exact (quadrant_bit1_b2z phase) |].
  split; [exact (quadrant_bit0_b2z phase) |].
  split; [exact (index_of_spec phase) |].
  split; [exact (residual_of_spec phase) |].
  split; [exact (fold_residual_spec phase) |].
  exact (cordic_start_spec t phase).
Qed.

(** ** The loop never leaves the 64-bit range *)

Section Generated.

Variables fangle finit : nat -> Z.
Hypothesis Hangles : angles_in_range fangle.
Hypothesis Hinitial : initial_in_range finit.

Lemma cordic_step_exact (i : nat) (st : state) (bx cz : Z) :
  (i < CORDIC_REPS)%nat ->
  bounded bx cz st -> bx <= 2 ^ 61 -> cz <= 2 ^ 61 ->
  cordic_step (setup_tables fangle finit) i st = Ok (spec_step (fangle i) (INDEX_BITS + Z.of_nat i) st) /\
  bounded (2 * bx) (2 * cz) (spec_step (fangle i) (INDEX_BITS + Z.of_nat i) st).
Proof.
  intros Hi (Hx & Hy & Hz) Hbx Hcz.
  destruct st as [x y z]; cbn [sx sy sz] in *.
  pose proof (Hangles i Hi) as Han.
  assert (Hi' : 0 <= Z.of_nat i < 24) by (unfold CORDIC_REPS in Hi; lia).
  unfold cordic_step, setup_tables; cbn [shifts angles sx sy sz].
  rewrite !read_map_seq by exact Hi. cbn [bind].
  change INDEX_BITS with 11 in *.
  rewrite wrap32_id by lia.
  unfold sar.
  replace ((0 <=? 11 + Z.of_nat i) && (11 + Z.of_nat i <? 64)) with true
    by (symmetry; apply andb_true_iff; split; [apply Z.leb_le | apply Z.ltb_lt]; lia).
  cbn [bind]. unfold spec_step, sign, bounded; cbn [sx sy sz].
  pose proof (shiftr_abs_le x (11 + Z.of_nat i) ltac:(lia)) as Htx.
  pose proof (shiftr_abs_le y (11 + Z.of_nat i) ltac:(lia)) as Hty.
  set (tx := Z.shiftr x (11 + Z.of_nat i)) in *.
  set (ty := Z.shiftr y (11 + Z.of_nat i)) in *.
  rewrite Z.shiftl_mul_pow2 by lia. change (2 ^ 1) with 2.
  rewrite (wrap32_id (- fangle i)) by lia.
  rewrite (wrap64_id (- tx)), (wrap64_id (- ty)) by (unfold in_int64; lia).
  destruct (Z.ltb_spec z 0) as [Hneg | Hpos];
    destruct (Z.leb_spec 0 z) as [Hpos' | Hneg']; try lia.
  - rewrite (wrap64_id (z + fangle i)) by (unfold in_int64; lia).
    rewrite !wrap64_id by (unfold in_int64; lia).
    split; [f_equal; f_equal; lia | lia].
  - rewrite (wrap64_id (z + - fangle i)) by (unfold in_int64; lia).
    rewrite !wrap64_id by (unfold in_int64; lia).
    split; [f_equal; f_equal; lia | lia].
Qed.

Lemma cordic_loop_exact (show : bool) (n : nat) :
  forall (k : nat) (st : state) (bx cz : Z),
    (k + n <= CORDIC_REPS)%nat ->
    bounded bx cz st ->
    bx * 2 ^ Z.of_nat n <= 2 ^ 62 -> cz * 2 ^ Z.of_nat n <= 2 ^ 62 ->
    (r <- cordic_loop (setup_tables fangle finit) show (seq k n) st ;; Ok (fst r)) =
    Ok (spec_loop fangle (seq k n) st) /\
    bounded (bx * 2 ^ Z.of_nat n) (cz * 2 ^ Z.of_nat n)
            (spec_loop fangle (seq k n) st).
Proof.
  induction n as [| n IH]; intros k st bx cz Hk Hb Hbx Hcz.
  - cbn [seq cordic_loop bind fst spec_loop fold_left].
    change (2 ^ Z.of_nat 0) with 1. rewrite !Z.mul_1_r. auto.
  - rewrite Nat2Z.inj_succ, Z.pow_succ_r in * by lia.
    assert (Hp : 1 <= 2 ^ Z.of_nat n) by (apply Z.pow_le_mono_r with (b := 0); lia).
    assert (Hbx0 : 0 <= bx) by (destruct Hb as (H & _); lia).
    assert (Hcz0 : 0 <= cz) by (destruct Hb as (_ & _ & H); lia).
    destruct (cordic_step_exact k st bx cz) as [Hstep Hb1];
      [lia | exact Hb | nia | nia |].
    cbn [seq cordic_loop spec_loop fold_left]. rewrite Hstep. cbn [bind].
    destruct (IH (S k) (spec_step (fangle k) (INDEX_BITS + Z.of_nat k) st)
                (2 * bx) (2 * cz)) as [Hloop Hb2];
      [lia | exact Hb1 | lia | lia |].
    split.
    + fold (spec_loop fangle (seq (S k) n)
              (spec_step (fangle k) (INDEX_BITS + Z.of_nat k) st)).
      rewrite <- Hloop.
      destruct (cordic_loop (setup_tables fangle finit) show (seq (S k) n)
                  (spec_step (fangle k) (INDEX_BITS + Z.of_nat k) st));
        reflexivity.
    + replace (bx * (2 * 2 ^ Z.of_nat n)) with (2 * bx * 2 ^ Z.of_nat n) by lia.
      replace (cz * (2 * 2 ^ Z.of_nat n)) with (2 * cz * 2 ^ Z.of_nat n) by lia.
      exact Hb2.
Qed.

(** The vector and the angle the loop starts from. *)
Lemma cordic_start_generated (z : Z) :
  exists st, cordic_start (setup_tables fangle finit) z = Ok st /\ bounded (2 ^ 35) (2 ^ 33) st.
Proof.
  pose proof (cordic_start_spec (setup_tables fangle finit) z) as Hs.
  pose proof (index_of_range z) as Hi. rewrite index_of_spec in Hi.
  change ((z / 2 ^ 19) mod 2 ^ 11) with (spec_index z) in Hi.
  change TABLE_SIZE with 2048 in Hi.
  pose proof (spec_folded_range z) as Hr.
  assert (Hbound : forall k, 0 <= k < 2048 -> Z.abs (finit (Z.to_nat k)) <= 2 ^ 35).
  { intros k Hk. apply Hinitial. change TABLE_SIZE with 2048. lia. }
  rewrite Hs. unfold spec_start, setup_tables; cbn [initial].
  change (2 ^ INDEX_BITS) with 2048.
  change (Z.to_nat TABLE_SIZE) with (Z.to_nat 2048).
  rewrite !read_map_seq_Z by lia.
  change (2 ^ (CORDIC_BITS + Z_EXTRA_BITS - 1)) with (2 ^ 20).
  destruct (spec_quadrant_bit0 z); cbn [bind];
    (eexists; split; [reflexivity |]);
    unfold bounded; cbn [sx sy sz];
    (split; [apply Hbound; lia | split; [apply Hbound; lia | lia]]).
Qed.

(** After [n] passes the machine accumulators are those of the rotation
    on unbounded integers, and they stay far inside the 64-bit range. *)
Lemma cordic_prefix_exact (z : Z) (n : nat) :
  (n <= CORDIC_REPS)%nat ->
  exists st0,
    cordic_start (setup_tables fangle finit) z = Ok st0 /\
    cordic_prefix (setup_tables fangle finit) z n = Ok (spec_loop fangle (seq 0 n) st0) /\
    bounded (2 ^ 59) (2 ^ 57) (spec_loop fangle (seq 0 n) st0).
Proof.
  intros Hn. destruct (cordic_start_generated z) as (st0 & Hs & Hb).
  exists st0. split; [exact Hs |].
  assert (Hpow : 2 ^ Z.of_nat n <= 2 ^ 24).
  { apply Z.pow_le_mono_r; [lia | unfold CORDIC_REPS in Hn; lia]. }
  assert (Hpos : 0 < 2 ^ Z.of_nat n) by (apply Z.pow_pos_nonneg; lia).
  destruct (cordic_loop_exact false n 0 st0 (2 ^ 35) (2 ^ 33)) as [Hl Hbn];
    [lia | exact Hb | nia | nia |].
  split.
  - unfold cordic_prefix. rewrite Hs. cbn [bind]. exact Hl.
  - destruct Hbn as (Hx & Hy & Hz). unfold bounded. nia.
Qed.

End Generated.

(** ** One iteration *)

Lemma spec_loop_snoc (fangle : nat -> Z) (i : nat) (st : state) :
  spec_loop fangle (seq 0 (S i)) st =
  spec_step (fangle i) (INDEX_BITS + Z.of_nat i) (spec_loop fangle (seq 0 i) st).
Proof.
  unfold spec_loop. rewrite seq_S, fold_left_app. reflexivity.
Qed.

(** C6: in a run of [cordic_sine_cosine] on the generated tables, pass [i]
    of the loop, for each [i] below [CORDIC_REPS], takes the accumulators
    [st] left by the passes before it to [spec_step rotation shift st],
    with [shift = shifts[i]] and [rotation = angles[i]]:
    [tx = x >> shift], [ty = y >> shift], [x -= sign(z) * ty],
    [y += sign(z) * tx], [z -= rotation] when [z >= 0] and
    [z += rotation] when [z < 0], then [z] doubled, all without leaving the
    64-bit range. In particular with [z < 0] the update of [y] is
    [y += - tx]. *)
Theorem C6_iteration_is_spec_step (fangle finit : nat -> Z) (phase : Z) (i : nat) :
  angles_in_range fangle ->
  initial_in_range finit ->
  (i < CORDIC_REPS)%nat ->
  let T := setup_tables fangle finit in
  exists st rotation shift,
    read (angles T) (Z.of_nat i) = Ok rotation /\
    read (shifts T) (Z.of_nat i) = Ok shift /\
    cordic_prefix T phase i = Ok st /\
    cordic_step T i st = Ok (spec_step rotation shift st) /\
    cordic_prefix T phase (S i) = Ok (spec_step rotation shift st) /\
    (sz st < 0 ->
     sx (spec_step rotation shift st) = sx st + Z.shiftr (sy st) shift /\
     sy (spec_step rotation shift st) = sy st + - Z.shiftr (sx st) shift /\
     sz (spec_step rotation shift st) = 2 * (sz st + rotation)) /\
    (0 <= sz st ->
     sx (spec_step rotation shift st) = sx st - Z.shiftr (sy st) shift /\
     sy (spec_step rotation shift st) = sy st + Z.shiftr (sx st) shift /\
     sz (spec_step rotation shift st) = 2 * (sz st - rotation)).
Proof.
  intros Ha Hi Hlt T.
  destruct (cordic_prefix_exact fangle finit Ha Hi phase i ltac:(lia))
    as (st0 & Hs0 & Hpre & Hb).
  destruct (cordic_prefix_exact fangle finit Ha Hi phase (S i) ltac:(lia))
    as (st0' & Hs0' & Hpre' & _).
  assert (st0' = st0) by congruence. subst st0'.
  destruct (cordic_step_exact fangle finit Ha i _ (2 ^ 59) (2 ^ 57) Hlt Hb)
    as [Hstep _]; [lia | lia |].
  exists (spec_loop fangle (seq 0 i) st0), (fangle i), (INDEX_BITS + Z.of_nat i).
  split; [apply read_map_seq; exact Hlt |].
  split.
  { unfold T, setup_tables; cbn [shifts]. rewrite read_map_seq by exact Hlt.
    rewrite wrap32_id; [reflexivity |].
    unfold CORDIC_REPS in Hlt. change INDEX_BITS with 11. lia. }
  split; [exact Hpre |].
  split; [exact Hstep |].
  split; [rewrite <- spec_loop_snoc; exact Hpre' |].
  unfold spec_step, sign; cbn [sx sy sz].
  split; intros Hz.
  - destruct (Z.ltb_spec (sz (spec_loop fangle (seq 0 i) st0)) 0); [| lia].
    destruct (Z.leb_spec 0 (sz (spec_loop fangle (seq 0 i) st0))); [lia |].
    repeat split; lia.
  - destruct (Z.ltb_spec (sz (spec_loop fangle (seq 0 i) st0)) 0); [lia |].
    destruct (Z.leb_spec 0 (sz (spec_loop fangle (seq 0 i) st0))); [| lia].
    repeat split; lia.
Qed.

(** ** Half a circle further *)

Lemma field_add_half (p k m : Z) :
  0 <= k -> 0 <= m -> k + m <= 31 ->
  ((p + 2 ^ 31) / 2 ^ k) mod 2 ^ m = (p / 2 ^ k) mod 2 ^ m.
Proof.
  intros Hk Hm Hkm.
  assert (Hpk : 0 < 2 ^ k) by (apply Z.pow_pos_nonneg; lia).
  assert (Hpm : 0 < 2 ^ m) by (apply Z.pow_pos_nonneg; lia).
  replace (2 ^ 31) with (2 ^ (31 - k - m) * 2 ^ m * 2 ^ k).
  - rewrite Z.div_add by lia. rewrite Z.mod_add by lia. reflexivity.
  - rewrite <- !Z.pow_add_r by lia. f_equal. lia.
Qed.

Lemma half_turn_quadrant_bit0 (p : Z) : quadrant_bit0 (half_turn p) = quadrant_bit0 p.
Proof.
  unfold half_turn. change FULL_CIRCLE with (2 ^ 32). change (2 ^ 32 / 2) with (2 ^ 31).
  rewrite quadrant_bit0_mod, !quadrant_bit0_spec.
  exact (field_add_half p 30 1 ltac:(lia) ltac:(lia) ltac:(lia)).
Qed.

Lemma half_turn_index_of (p : Z) : index_of (half_turn p) = index_of p.
Proof.
  unfold half_turn. change FULL_CIRCLE with (2 ^ 32). change (2 ^ 32 / 2) with (2 ^ 31).
  rewrite index_of_mod, !index_of_spec.
  exact (field_add_half p 19 11 ltac:(lia) ltac:(lia) ltac:(lia)).
Qed.

Lemma half_turn_residual_of (p : Z) : residual_of (half_turn p) = residual_of p.
Proof.
  unfold half_turn. change FULL_CIRCLE with (2 ^ 32). change (2 ^ 32 / 2) with (2 ^ 31).
  rewrite residual_of_mod, !residual_of_spec. f_equal.
  pose proof (field_add_half p 0 19 ltac:(lia) ltac:(lia) ltac:(lia)) as H.
  change (2 ^ 0) with 1 in H. rewrite !Z.div_1_r in H. exact H.
Qed.

Lemma half_turn_quadrant_bit1 (p : Z) :
  quadrant_bit1 (half_turn p) = 1 - quadrant_bit1 p.
Proof.
  unfold half_turn. change FULL_CIRCLE with (2 ^ 32). change (2 ^ 32 / 2) with (2 ^ 31).
  rewrite quadrant_bit1_mod, !quadrant_bit1_spec.
  replace (p + 2 ^ 31) with (p + 1 * 2 ^ 31) by lia.
  rewrite Z.div_add by lia.
  pose proof (Z.div_mod (p / 2 ^ 31 + 1) 2 ltac:(lia)).
  pose proof (Z.div_mod (p / 2 ^ 31) 2 ltac:(lia)).
  pose proof (Z.mod_pos_bound (p / 2 ^ 31 + 1) 2 ltac:(lia)).
  pose proof (Z.mod_pos_bound (p / 2 ^ 31) 2 ltac:(lia)).
  lia.
Qed.

Lemma cordic_start_fields (t : tables) (p q : Z) :
  quadrant_bit0 p = quadrant_bit0 q ->
  index_of p = index_of q ->
  residual_of p = residual_of q ->
  cordic_start t p = cordic_start t q.
Proof.
  intros H0 Hi Hr. unfold cordic_start. rewrite H0, Hi, Hr. reflexivity.
Qed.

Lemma half_turn_prefix (t : tables) (p : Z) (n : nat) :
  cordic_prefix t (half_turn p) n = cordic_prefix t p n.
Proof.
  unfold cordic_prefix.
  rewrite (cordic_start_fields t (half_turn p) p
             (half_turn_quadrant_bit0 p) (half_turn_index_of p)
             (half_turn_residual_of p)).
  reflexivity.
Qed.

(** Shifting out the guard bits of [v] and of [- v]. *)
Lemma shiftr_opp_sum (v n : Z) :
  0 <= n -> - 1 <= Z.shiftr v n + Z.shiftr (- v) n <= 0.
Proof.
  intros Hn. rewrite !Z.shiftr_div_pow2 by assumption.
  assert (Hp : 0 < 2 ^ n) by (apply Z.pow_pos_nonneg; lia).
  pose proof (Z.div_mod v (2 ^ n) ltac:(lia)).
  pose proof (Z.div_mod (- v) (2 ^ n) ltac:(lia)).
  pose proof (Z.mod_pos_bound v (2 ^ n) Hp).
  pose proof (Z.mod_pos_bound (- v) (2 ^ n) Hp).
  nia.
Qed.

Lemma pre_shift_flip (f v : Z) :
  (f = 0 \/ f = 1) -> Z.abs v < 2 ^ 63 ->
  pre_shift (1 - f) v = - pre_shift f v.
Proof.
  intros [-> | ->] Hv; unfold pre_shift; cbn [Z.sub Z.eqb Z.opp Z.add Z.pos_sub];
    rewrite wrap64_id by (unfold in_int64; lia); lia.
Qed.

Lemma finish_flip (f v : Z) :
  (f = 0 \/ f = 1) -> Z.abs v < 2 ^ 63 ->
  - 1 <= finish f v + finish (1 - f) v <= 0.
Proof.
  intros Hf Hv. unfold finish. rewrite (pre_shift_flip f v Hf Hv).
  apply shiftr_opp_sum. discriminate.
Qed.

Lemma half_turn_flip_sin (p : Z) : flip_sin_sign (half_turn p) = 1 - flip_sin_sign p.
Proof. exact (half_turn_quadrant_bit1 p). Qed.

Lemma flip_cos_sign_range (p : Z) : flip_cos_sign p = 0 \/ flip_cos_sign p = 1.
Proof.
  unfold flip_cos_sign.
  destruct (quadrant_bit1_range p) as [-> | ->];
    destruct (quadrant_bit0_range p) as [-> | ->]; cbn; auto.
Qed.

Lemma half_turn_flip_cos (p : Z) : flip_cos_sign (half_turn p) = 1 - flip_cos_sign p.
Proof.
  unfold flip_cos_sign. rewrite half_turn_quadrant_bit1, half_turn_quadrant_bit0.
  destruct (quadrant_bit1_range p) as [-> | ->];
    destruct (quadrant_bit0_range p) as [-> | ->]; reflexivity.
Qed.

Lemma ok_pair_inj (a b c d : Z) :
  @Ok (Z * Z) (a, b) = Ok (c, d) -> a = c /\ b = d.
Proof.
  intros H. injection H as -> ->. auto.
Qed.

(** On the generated tables a call always returns, and what it returns is
    read off the accumulators left by the [CORDIC_REPS] passes. *)
Lemma cordic_sine_cosine_generated (fangle finit : nat -> Z) (z : Z) (show : bool) :
  angles_in_range fangle ->
  initial_in_range finit ->
  exists st a,
    cordic_prefix (setup_tables fangle finit) z CORDIC_REPS = Ok st /\
    bounded (2 ^ 59) (2 ^ 57) st /\
    cordic_sine_cosine (setup_tables fangle finit) z show = Ok a /\
    sin_value a = finish (flip_sin_sign z) (sy st) /\
    cos_value a = finish (flip_cos_sign z) (sx st).
Proof.
  intros Ha Hi.
  destruct (cordic_prefix_exact fangle finit Ha Hi z CORDIC_REPS (le_n _))
    as (st0 & _ & Hpre & Hb).
  pose proof (values_cordic_sine_cosine (setup_tables fangle finit) z show) as Hv.
  rewrite Hpre in Hv. cbn [bind] in Hv. unfold values in Hv.
  destruct (cordic_sine_cosine (setup_tables fangle finit) z show) as [a | f];
    cbn [bind] in Hv; [| discriminate].
  apply ok_pair_inj in Hv. destruct Hv as [Hsin Hcos].
  exists (spec_loop fangle (seq 0 CORDIC_REPS) st0), a.
  split; [exact Hpre |]. split; [exact Hb |]. split; [reflexivity |].
  split; [exact Hsin | exact Hcos].
Qed.

(** C2: on the generated tables, for every phase of [0, FULL_CIRCLE), the
    call at [phase] and the call at [(phase + FULL_CIRCLE / 2) mod
    FULL_CIRCLE] leave the same accumulators [x] and [y]; the values
    handed to the final shift are exact negations of each other; and each
    output at one phase differs from the negation of the output at the
    other by at most one unit. *)
Theorem C2_half_turn_negates (fangle finit : nat -> Z) (phase : Z) (show : bool) :
  angles_in_range fangle ->
  initial_in_range finit ->
  0 <= phase < FULL_CIRCLE ->
  let T := setup_tables fangle finit in
  exists st a b,
    cordic_prefix T phase CORDIC_REPS = Ok st /\
    cordic_prefix T (half_turn phase) CORDIC_REPS = Ok st /\
    cordic_sine_cosine T phase show = Ok a /\
    cordic_sine_cosine T (half_turn phase) show = Ok b /\
    pre_shift (flip_sin_sign (half_turn phase)) (sy st) =
      - pre_shift (flip_sin_sign phase) (sy st) /\
    pre_shift (flip_cos_sign (half_turn phase)) (sx st) =
      - pre_shift (flip_cos_sign phase) (sx st) /\
    Z.abs (sin_value b - - sin_value a) <= 1 /\
    Z.abs (cos_value b - - cos_value a) <= 1.
Proof.
  intros Ha Hi _ T.
  destruct (cordic_sine_cosine_generated fangle finit phase show Ha Hi)
    as (st & a & Hpre & (Hx & Hy & _) & Hcall & Hsin & Hcos).
  destruct (cordic_sine_cosine_generated fangle finit (half_turn phase) show Ha Hi)
    as (st' & b & Hpre' & _ & Hcall' & Hsin' & Hcos').
  fold T in Hpre, Hpre', Hcall, Hcall'.
  rewrite half_turn_prefix in Hpre'.
  assert (st' = st) by congruence. subst st'.
  exists st, a, b.
  assert (Hxr : Z.abs (sx st) < 2 ^ 63) by lia.
  assert (Hyr : Z.abs (sy st) < 2 ^ 63) by lia.
  pose proof (quadrant_bit1_range phase) as Hq1.
  pose proof (flip_cos_sign_range phase) as Hfc.
  rewrite half_turn_flip_sin, half_turn_flip_cos in *.
  pose proof (finish_flip (flip_sin_sign phase) (sy st) Hq1 Hyr) as Hs.
  pose proof (finish_flip (flip_cos_sign phase) (sx st) Hfc Hxr) as Hc.
  repeat split; try assumption.
  - rewrite half_turn_prefix. exact Hpre.
  - apply pre_shift_flip; assumption.
  - apply pre_shift_flip; assumption.
  - rewrite Hsin, Hsin'. lia.
  - rewrite Hcos, Hcos'. lia.
Qed.

(** ** The closing note of [setup] *)

Lemma no_note_among_angles (f : nat -> Z) (l : list nat) :
  filter setup_msg_is_note (map (fun i => MsgAngle i (f i)) l) = [].
Proof.
  induction l as [| i l IH]; [reflexivity | exact IH].
Qed.

Lemma setup_total (fangle finit : nat -> Z) :
  setup fangle finit =
  Ok (setup_tables fangle finit,
      MsgStart :: map (fun i => MsgAngle i (fangle i)) (seq 0 CORDIC_REPS) ++
      (if fangle 0%nat =? fangle 23%nat then [MsgBar; MsgNote; MsgBar] else [])).
Proof.
  unfold setup, diagnostic, setup_tables; cbn [angles].
  change 0 with (Z.of_nat 0) at 1.
  change (Z.of_nat CORDIC_REPS - 1) with (Z.of_nat 23).
  rewrite !read_map_seq by (unfold CORDIC_REPS; lia).
  reflexivity.
Qed.

Lemma setup_signal_count (fangle finit : nat -> Z) :
  exists out,
    setup fangle finit = Ok (setup_tables fangle finit, out) /\
    signal_count out = if fangle 0%nat =? fangle 23%nat then 1%nat else 0%nat.
Proof.
  eexists. split; [apply setup_total |].
  unfold signal_count. cbn [filter setup_msg_is_note].
  rewrite filter_app, no_note_among_angles.
  destruct (fangle 0%nat =? fangle 23%nat); reflexivity.
Qed.

Lemma all_identical_ends (fangle finit : nat -> Z) :
  all_identical (angles (setup_tables fangle finit)) -> fangle 0%nat = fangle 23%nat.
Proof.
  intros H. apply (H 0%nat 23%nat); reflexivity.
Qed.

(** The test itself looks at the two ends only: [setup] always
    completes, and prints the note once if [angles[0]] equals
    [angles[CORDIC_REPS - 1]] and not at all otherwise. *)
Lemma setup_note_iff_ends_equal (fangle finit : nat -> Z) :
  exists out a0 an,
    setup fangle finit = Ok (setup_tables fangle finit, out) /\
    read (angles (setup_tables fangle finit)) 0 = Ok a0 /\
    read (angles (setup_tables fangle finit)) (Z.of_nat CORDIC_REPS - 1) = Ok an /\
    (signal_count out = 1%nat <-> a0 = an) /\
    (signal_count out = 0%nat <-> a0 <> an) /\
    (all_identical (angles (setup_tables fangle finit)) -> signal_count out = 1%nat).
Proof.
  destruct (setup_signal_count fangle finit) as (out & Hs & Hc).
  exists out, (fangle 0%nat), (fangle 23%nat).
  split; [exact Hs |].
  split; [exact (read_map_seq fangle CORDIC_REPS 0 ltac:(unfold CORDIC_REPS; lia)) |].
  split; [exact (read_map_seq fangle CORDIC_REPS 23 ltac:(unfold CORDIC_REPS; lia)) |].
  rewrite Hc.
  destruct (Z.eqb_spec (fangle 0%nat) (fangle 23%nat)) as [E | E].
  - split; [split; auto |]. split; [| auto].
    split; [intros H; discriminate H | intros H; elim (H E)].
  - split; [split; [intros H; discriminate H | intros H; elim (E H)] |].
    split; [split; auto |].
    intros H. elim E. exact (all_identical_ends fangle finit H).
Qed.

(** In a table that does not decrease from one entry to the next, equal
    ends force all entries equal. *)
Lemma non_decreasing_equal_ends (fangle finit : nat -> Z) :
  non_decreasing (angles (setup_tables fangle finit)) ->
  fangle 0%nat = fangle 23%nat ->
  all_identical (angles (setup_tables fangle finit)).
Proof.
  intros Hmono E.
  assert (Hall : forall i v, nth_error (angles (setup_tables fangle finit)) i = Some v ->
                             v = fangle 0%nat).
  { intros i v Hv.
    assert (Hi : (i < 24)%nat).
    { assert (Hlen : (i < length (angles (setup_tables fangle finit)))%nat)
        by (apply nth_error_Some; congruence).
      unfold setup_tables in Hlen; cbn [angles] in Hlen.
      rewrite length_map, length_seq in Hlen. exact Hlen. }
    pose proof (Hmono 0%nat i (fangle 0%nat) v ltac:(lia) eq_refl Hv).
    pose proof (Hmono i 23%nat v (fangle 23%nat) ltac:(lia) Hv eq_refl).
    lia. }
  intros i j v w Hv Hw. rewrite (Hall i v Hv), (Hall j w Hw). reflexivity.
Qed.

(** For a table that does not decrease from one entry to the next, equal
    ends force all entries equal: there the note is printed exactly when
    all entries are identical. *)
Lemma note_on_non_decreasing_table (fangle finit : nat -> Z) :
  non_decreasing (angles (setup_tables fangle finit)) ->
  exists out,
    setup fangle finit = Ok (setup_tables fangle finit, out) /\
    (signal_count out = 1%nat <-> all_identical (angles (setup_tables fangle finit))).
Proof.
  intros Hmono.
  destruct (setup_signal_count fangle finit) as (out & Hs & Hc).
  exists out. split; [exact Hs |]. rewrite Hc.
  destruct (Z.eqb_spec (fangle 0%nat) (fangle 23%nat)) as [E | E].
  - split; [intros _ | reflexivity].
    exact (non_decreasing_equal_ends fangle finit Hmono E).
  - split; [discriminate |]. intros H. elim E.
    exact (all_identical_ends fangle finit H).
Qed.

(** C7: during table generation, on the table line 119 stores, whose
    entries [2 ^ i * atan (2 ^ - (i - start_shifts))] do not decrease with
    [i], [setup] completes and the note that all entries of [angles] are
    the same is printed exactly once if and only if all [CORDIC_REPS]
    entries are identical; it is not printed when some pair of entries
    differs, and never more than once. *)
Theorem C7_note_iff_all_identical (fangle finit : nat -> Z) :
  non_decreasing (angles (setup_tables fangle finit)) ->
  exists out,
    setup fangle finit = Ok (setup_tables fangle finit, out) /\
    (signal_count out = 1%nat <-> all_identical (angles (setup_tables fangle finit))) /\
    (forall i j v w,
        nth_error (angles (setup_tables fangle finit)) i = Some v ->
        nth_error (angles (setup_tables fangle finit)) j = Some w ->
        v <> w -> signal_count out = 0%nat) /\
    (signal_count out <= 1)%nat.
Proof.
  intros Hmono.
  destruct (setup_signal_count fangle finit) as (out & Hs & Hc).
  exists out. split; [exact Hs |]. rewrite Hc.
  destruct (Z.eqb_spec (fangle 0%nat) (fangle 23%nat)) as [E | E].
  - pose proof (non_decreasing_equal_ends fangle finit Hmono E) as Hall.
    split; [split; auto |].
    split; [| apply le_n].
    intros i j v w Hv Hw Hne. elim Hne. exact (Hall i j v w Hv Hw).
  - split.
    + split; [intros H; discriminate H |].
      intros H. elim E. exact (all_identical_ends fangle finit H).
    + split; [intros; reflexivity | apply le_S, le_n].
Qed.

(** ** Signs of the outputs *)

Lemma finish_sign (v : Z) :
  0 <= v < 2 ^ 63 -> 0 <= finish 0 v /\ finish 1 v <= 0.
Proof.
  intros Hv. unfold finish, pre_shift; cbn [Z.eqb].
  rewrite wrap64_id by (unfold in_int64; lia).
  rewrite !Z.shiftr_div_pow2 by discriminate.
  change (2 ^ OUTPUT_EXTRA_BITS) with 16.
  split.
  - apply Z.div_pos; lia.
  - assert (- v / 16 < 1) by (apply Z.div_lt_upper_bound; lia). lia.
Qed.

(** The flips of lines 152-153 give the quadrant sign table whenever the
    accumulators end non-negative: which they do is a matter of the values
    stored in [initial] and [angles]. *)
Lemma quadrant_signs_of_nonneg_accumulators
  (t : tables) (phase : Z) (show : bool) (st : state) (a : answer) :
  cordic_prefix t phase CORDIC_REPS = Ok st ->
  cordic_sine_cosine t phase show = Ok a ->
  0 <= sx st < 2 ^ 63 -> 0 <= sy st < 2 ^ 63 ->
  (quadrant_bit1 phase = quadrant_bit0 phase -> 0 <= cos_value a) /\
  (quadrant_bit1 phase <> quadrant_bit0 phase -> cos_value a <= 0) /\
  (quadrant_bit1 phase = 0 -> 0 <= sin_value a) /\
  (quadrant_bit1 phase = 1 -> sin_value a <= 0).
Proof.
  intros Hpre Hcall Hx Hy.
  pose proof (values_cordic_sine_cosine t phase show) as Hv.
  rewrite Hpre, Hcall in Hv. cbn [bind] in Hv. unfold values in Hv; cbn [bind] in Hv.
  apply ok_pair_inj in Hv. destruct Hv as [-> ->].
  destruct (finish_sign (sx st) Hx) as [Hc0 Hc1].
  destruct (finish_sign (sy st) Hy) as [Hs0 Hs1].
  unfold flip_sin_sign, flip_cos_sign.
  destruct (quadrant_bit1_range phase) as [-> | ->];
    destruct (quadrant_bit0_range phase) as [-> | ->];
    cbn [Z.lxor Pos.lxor]; repeat split; intros; try assumption; congruence.
Qed.

(** ** Runs on the sample tables *)

Example sample_fields :
  (quadrant_bit1 1234567890, quadrant_bit0 1234567890,
   index_of 1234567890, residual_of 1234567890) = (0, 1, 306, 1575752).
Proof. reflexivity. Qed.

Example sample_start_unfolded :
  cordic_start sample_tables 123456789 =
  Ok {| sx := 30408703992; sy := 3951034360; sz := -52140 |}.
Proof. vm_compute. reflexivity. Qed.

Example sample_start_folded :
  cordic_start sample_tables 1234567890 =
  Ok {| sx := 5142216696; sy := 29217521656; sz := -527176 |}.
Proof. vm_compute. reflexivity. Qed.

Example sample_fourth_pass :
  cordic_prefix sample_tables 123456789 3 =
    Ok {| sx := 30409190828; sy := 3947322949; sz := 2253058 |} /\
  cordic_prefix sample_tables 123456789 4 =
    Ok {| sx := 30408949903; sy := 3949178978; sz := 1835938 |}.
Proof. split; vm_compute; reflexivity. Qed.

Example sample_half_turn :
  half_turn 123456789 = 2270940437 /\
  values (cordic_sine_cosine sample_tables 123456789 false) =
    Ok (246903445, 1900549009) /\
  values (cordic_sine_cosine sample_tables 2270940437 false) =
    Ok (-246903445, -1900549010).
Proof. repeat split; vm_compute; reflexivity. Qed.

Example sample_trace_length :
  (a <- cordic_sine_cosine sample_tables 0 true ;; Ok (length (printed a))) =
  Ok 26%nat.
Proof. vm_compute. reflexivity. Qed.

(** With [low_ramp] in [initial], within range as well, the sine returned
    at phase 0 is negative. *)
Example low_ramp_sine_at_zero :
  values (cordic_sine_cosine (setup_tables sample_angles low_ramp) 0 false) =
  Ok (-1, 2046).
Proof. vm_compute. reflexivity. Qed.

(** ** The theorems at a sample input *)

Lemma sample_angles_in_range : angles_in_range sample_angles.
Proof.
  intros i _. unfold sample_angles. lia.
Defined.

Lemma sample_initial_in_range : initial_in_range sample_initial.
Proof.
  intros k Hk. unfold sample_initial.
  change (Z.to_nat TABLE_SIZE) with (Z.to_nat 2048) in Hk.
  change (OUTPUT_SCALE * 2 ^ OUTPUT_EXTRA_BITS) with 34359738368.
  lia.
Defined.

Lemma sample_tables_well_sized : well_sized sample_tables.
Proof.
  repeat split; vm_compute; reflexivity.
Defined.

Lemma sample_angles_entry (i : nat) (v : Z) :
  nth_error (angles sample_tables) i = Some v -> v = 1335089.
Proof.
  unfold sample_tables, setup_tables; cbn [angles].
  rewrite nth_error_map.
  destruct (nth_error (seq 0 CORDIC_REPS) i); cbn [option_map]; intros H;
    [injection H as <-; reflexivity | discriminate H].
Defined.

Lemma sample_angles_non_decreasing : non_decreasing (angles sample_tables).
Proof.
  intros i j v w _ Hv Hw.
  rewrite (sample_angles_entry i v Hv), (sample_angles_entry j w Hw). lia.
Defined.

Lemma C7_note_iff_all_identical_sample :
  non_decreasing (angles sample_tables) /\
  exists out,
    setup sample_angles sample_initial = Ok (sample_tables, out) /\
    (signal_count out = 1%nat <-> all_identical (angles sample_tables)) /\
    (signal_count out <= 1)%nat.
Proof.
  split; [exact sample_angles_non_decreasing |].
  destruct (C7_note_iff_all_identical sample_angles sample_initial
              sample_angles_non_decreasing) as (out & Hs & Hiff & _ & Hle).
  exists out. auto.
Defined.

(** With entries that differ the note is not printed; with the constant
    table it is, once. *)
Example rising_table_not_noted :
  (r <- setup rising_angles sample_initial ;; Ok (signal_count (snd r))) = Ok 0%nat /\
  (r <- setup sample_angles sample_initial ;; Ok (signal_count (snd r))) = Ok 1%nat.
Proof. split; vm_compute; reflexivity. Qed.

Lemma C10_reads_in_bounds_sample :
  well_sized sample_tables /\
  0 <= 123456789 < FULL_CIRCLE /\
  0 <= index_of 123456789 < Z.of_nat (length (initial sample_tables)) /\
  0 <= TABLE_SIZE - 1 - index_of 123456789 < Z.of_nat (length (initial sample_tables)) /\
  Forall (fun i => (i < length (shifts sample_tables))%nat /\
                   (i < length (angles sample_tables))%nat)
         (seq 0 CORDIC_REPS) /\
  cordic_sine_cosine sample_tables 123456789 false <> Fault OutOfBounds.
Proof.
  split; [exact sample_tables_well_sized |].
  split; [vm_compute; split; [discriminate | reflexivity] |].
  apply (C10_reads_in_bounds sample_tables 123456789 false).
  - exact sample_tables_well_sized.
  - vm_compute; split; [discriminate | reflexivity].
Defined.

Lemma C8_phase_modulo_sample :
  0 <= 5000000000 < 2 ^ 63 /\
  cordic_sine_cosine sample_tables 5000000000 false =
  cordic_sine_cosine sample_tables (5000000000 mod 2 ^ INPUT_BITS) false.
Proof.
  split; [lia |].
  apply (C8_phase_modulo_input_bits sample_tables 5000000000 false). lia.
Defined.

Lemma C6_iteration_sample :
  angles_in_range sample_angles /\
  initial_in_range sample_initial /\
  (3 < CORDIC_REPS)%nat /\
  exists st rotation shift,
    read (angles sample_tables) 3 = Ok rotation /\
    read (shifts sample_tables) 3 = Ok shift /\
    cordic_prefix sample_tables 123456789 3 = Ok st /\
    cordic_prefix sample_tables 123456789 4 = Ok (spec_step rotation shift st).
Proof.
  split; [exact sample_angles_in_range |].
  split; [exact sample_initial_in_range |].
  split; [unfold CORDIC_REPS; lia |].
  destruct (C6_iteration_is_spec_step sample_angles sample_initial 123456789 3
              sample_angles_in_range sample_initial_in_range
              ltac:(unfold CORDIC_REPS; lia))
    as (st & rotation & shift & Hr & Hs & Hp & _ & Hn & _).
  exists st, rotation, shift. auto.
Defined.

Lemma C2_half_turn_sample :
  angles_in_range sample_angles /\
  initial_in_range sample_initial /\
  0 <= 123456789 < FULL_CIRCLE /\
  exists a b,
    cordic_sine_cosine sample_tables 123456789 false = Ok a /\
    cordic_sine_cosine sample_tables (half_turn 123456789) false = Ok b /\
    Z.abs (sin_value b - - sin_value a) <= 1 /\
    Z.abs (cos_value b - - cos_value a) <= 1.
Proof.
  split; [exact sample_angles_in_range |].
  split; [exact sample_initial_in_range |].
  split; [vm_compute; split; [discriminate | reflexivity] |].
  destruct (C2_half_turn_negates sample_angles sample_initial 123456789 false
              sample_angles_in_range sample_initial_in_range
              ltac:(vm_compute; split; [discriminate | reflexivity]))
    as (st & a & b & _ & _ & Ha & Hb & _ & _ & Hs & Hc).
  exists a, b. auto.
Defined.

(** * Further properties of the code *)

(** ** A call on the generated tables always returns *)

(** The loop body on the generated tables, written out: the shift count
    of pass [i] is [INDEX_BITS + i], whatever was stored in [angles] and
    [initial]. *)
Lemma cordic_step_generated (fangle finit : nat -> Z) (i : nat) (st : state) :
  (i < CORDIC_REPS)%nat ->
  cordic_step (setup_tables fangle finit) i st =
  let sh := INDEX_BITS + Z.of_nat i in
  let neg := sz st <? 0 in
  Ok {| sx := wrap64 (sx st - (if neg then wrap64 (- Z.shiftr (sy st) sh)
                               else Z.shiftr (sy st) sh));
        sy := wrap64 (sy st + (if neg then wrap64 (- Z.shiftr (sx st) sh)
                               else Z.shiftr (sx st) sh));
        sz := wrap64 (Z.shiftl (wrap64 (sz st + (if neg then fangle i
                                                  else wrap32 (- fangle i)))) 1) |}.
Proof.
  intros Hi.
  assert (Hi' : 0 <= Z.of_nat i < 24) by (unfold CORDIC_REPS in Hi; lia).
  unfold cordic_step, setup_tables; cbn [shifts angles].
  rewrite !read_map_seq by exact Hi. cbn [bind].
  change INDEX_BITS with 11.
  rewrite wrap32_id by lia.
  unfold sar.
  replace ((0 <=? 11 + Z.of_nat i) && (11 + Z.of_nat i <? 64)) with true
    by (symmetry; apply andb_true_iff; split; [apply Z.leb_le | apply Z.ltb_lt]; lia).
  reflexivity.
Qed.

Lemma cordic_loop_generated_total (fangle finit : nat -> Z) (show : bool)
  (idx : list nat) :
  Forall (fun i => (i < CORDIC_REPS)%nat) idx ->
  forall st, exists r, cordic_loop (setup_tables fangle finit) show idx st = Ok r.
Proof.
  intros Hidx. induction Hidx as [| i rest Hi _ IH]; intros st; cbn [cordic_loop].
  - eauto.
  - rewrite (cordic_step_generated fangle finit i st Hi). cbv zeta. cbn [bind].
    match goal with |- context [cordic_loop _ _ rest ?s] => destruct (IH s) as [r Hr] end.
    rewrite Hr. cbn [bind]. eauto.
Qed.

Lemma cordic_sine_cosine_total (fangle finit : nat -> Z) (z : Z) (show : bool) :
  exists a, cordic_sine_cosine (setup_tables fangle finit) z show = Ok a.
Proof.
  unfold cordic_sine_cosine.
  destruct (cordic_start_total (setup_tables fangle finit) z
              (setup_tables_well_sized fangle finit)) as [st0 Hs].
  rewrite Hs. cbn [bind].
  destruct (cordic_loop_generated_total fangle finit show _ loop_indices_in_range st0)
    as [r Hr].
  rewrite Hr. cbn [bind]. eauto.
Qed.

Lemma read_ok_bounds (a : list Z) (i v : Z) :
  read a i = Ok v -> 0 <= i < Z.of_nat (length a).
Proof.
  unfold read. destruct (Z.ltb_spec i 0) as [H | H]; [discriminate |].
  destruct (nth_error a (Z.to_nat i)) eqn:E; [| discriminate].
  intros _. assert (Z.to_nat i < length a)%nat by (apply nth_error_Some; congruence).
  lia.
Qed.

(** X1: whatever integers [setup] stored in [angles] and [initial], a call
    of [cordic_sine_cosine] on its tables returns for every phase, negative
    or beyond the full circle included, with [show] set or not: no read
    leaves an array and every shift count, [INDEX_BITS + i], is below 64. *)
Theorem X1_generated_call_returns (fangle finit : nat -> Z) (z : Z) (show : bool) :
  (exists a, cordic_sine_cosine (setup_tables fangle finit) z show = Ok a) /\
  (forall i sh, read (shifts (setup_tables fangle finit)) i = Ok sh ->
                sh = INDEX_BITS + i /\ 0 <= sh < 64).
Proof.
  split; [apply cordic_sine_cosine_total |].
  intros i sh Hr.
  pose proof (read_ok_bounds _ _ _ Hr) as Hi.
  destruct (setup_tables_well_sized fangle finit) as (_ & Hlen & _).
  rewrite Hlen in Hi. change (Z.of_nat CORDIC_REPS) with 24 in Hi.
  rewrite <- (Z2Nat.id i) in Hr by lia.
  unfold setup_tables in Hr; cbn [shifts] in Hr.
  rewrite read_map_seq in Hr by (unfold CORDIC_REPS; lia).
  rewrite Z2Nat.id in Hr by lia. change INDEX_BITS with 11 in *.
  rewrite wrap32_id in Hr by lia.
  assert (sh = 11 + i) by congruence. lia.
Qed.

(** ** Whole turns *)

(** X3: the phase is an angle: adding any number of full circles, forwards
    or backwards, to any 64-bit phase changes nothing in what
    [cordic_sine_cosine] returns or prints. *)
Theorem X3_full_circles_ignored (t : tables) (phase k : Z) (show : bool) :
  cordic_sine_cosine t (phase + k * FULL_CIRCLE) show =
  cordic_sine_cosine t phase show.
Proof.
  rewrite <- (cordic_sine_cosine_mod t (phase + k * FULL_CIRCLE)).
  rewrite <- (cordic_sine_cosine_mod t phase).
  change FULL_CIRCLE with (2 ^ INPUT_BITS).
  rewrite Z.mod_add by (change (2 ^ INPUT_BITS) with 4294967296; lia).
  reflexivity.
Qed.

(** ** The four fields and the phase *)

Lemma phase_fields_reassemble (p : Z) :
  compose_phase (quadrant_bit1 p) (quadrant_bit0 p) (index_of p)
                (residual_of p / 2 ^ Z_EXTRA_BITS) = p mod 2 ^ 32.
Proof.
  rewrite quadrant_bit1_spec, quadrant_bit0_spec, index_of_spec, residual_of_spec.
  unfold compose_phase.
  change (CORDIC_BITS + INDEX_BITS + 1) with 31.
  change (CORDIC_BITS + INDEX_BITS) with 30.
  change CORDIC_BITS with 19. change Z_EXTRA_BITS with 2.
  rewrite Z.div_mul by lia.
  assert (H30 : p / 2 ^ 30 = p / 2 ^ 19 / 2 ^ 11) by (rewrite Z.div_div by lia; reflexivity).
  assert (H31 : p / 2 ^ 31 = p / 2 ^ 30 / 2) by (rewrite Z.div_div by lia; reflexivity).
  assert (H32 : p / 2 ^ 32 = p / 2 ^ 31 / 2) by (rewrite Z.div_div by lia; reflexivity).
  pose proof (Z.div_mod p (2 ^ 19) ltac:(lia)) as E19.
  pose proof (Z.div_mod (p / 2 ^ 19) (2 ^ 11) ltac:(lia)) as E30.
  pose proof (Z.div_mod (p / 2 ^ 30) 2 ltac:(lia)) as E31.
  pose proof (Z.div_mod (p / 2 ^ 31) 2 ltac:(lia)) as E32.
  pose proof (Z.div_mod p (2 ^ 32) ltac:(lia)) as E.
  rewrite <- H30 in E30. rewrite <- H31 in E31. rewrite <- H32 in E32.
  lia.
Qed.

Lemma fields_of_compose (q1 q0 index low : Z) :
  0 <= q1 <= 1 -> 0 <= q0 <= 1 -> 0 <= index < TABLE_SIZE ->
  0 <= low < 2 ^ CORDIC_BITS ->
  quadrant_bit1 (compose_phase q1 q0 index low) = q1 /\
  quadrant_bit0 (compose_phase q1 q0 index low) = q0 /\
  index_of (compose_phase q1 q0 index low) = index /\
  residual_of (compose_phase q1 q0 index low) = low * 2 ^ Z_EXTRA_BITS.
Proof.
  intros H1 H0 Hi Hl.
  change TABLE_SIZE with (2 ^ 11) in Hi. change CORDIC_BITS with 19 in Hl.
  set (p := compose_phase q1 q0 index low).
  pose proof (phase_fields_reassemble p) as Hp.
  pose proof (quadrant_bit1_range p) as R1.
  pose proof (quadrant_bit0_range p) as R0.
  pose proof (index_of_range p) as Ri. change TABLE_SIZE with (2 ^ 11) in Ri.
  pose proof (residual_of_spec p) as Hr.
  pose proof (Z.mod_pos_bound p (2 ^ 19) ltac:(lia)) as Rl.
  assert (Hsmall : p mod 2 ^ 32 = p).
  { apply Z.mod_small. unfold p, compose_phase.
    change (CORDIC_BITS + INDEX_BITS + 1) with 31.
    change (CORDIC_BITS + INDEX_BITS) with 30. change CORDIC_BITS with 19. lia. }
  rewrite Hsmall, Hr in Hp. change Z_EXTRA_BITS with 2 in *.
  rewrite Z.div_mul in Hp by lia.
  unfold compose_phase in Hp.
  change (CORDIC_BITS + INDEX_BITS + 1) with 31 in Hp.
  change (CORDIC_BITS + INDEX_BITS) with 30 in Hp. change CORDIC_BITS with 19 in Hp.
  rewrite Hr.
  assert (Hp' : quadrant_bit1 p * 2 ^ 31 + quadrant_bit0 p * 2 ^ 30 +
                index_of p * 2 ^ 19 + p mod 2 ^ 19 =
                q1 * 2 ^ 31 + q0 * 2 ^ 30 + index * 2 ^ 19 + low).
  { rewrite Hp. unfold p, compose_phase.
    change (CORDIC_BITS + INDEX_BITS + 1) with 31.
    change (CORDIC_BITS + INDEX_BITS) with 30. change CORDIC_BITS with 19.
    reflexivity. }
  clearbody p. clear Hp Hsmall Hr.
  assert (quadrant_bit1 p = q1) by lia.
  assert (quadrant_bit0 p = q0) by lia.
  assert (index_of p = index) by lia.
  repeat split; try assumption. lia.
Qed.

(** X2: the two quadrant bits, the index and the residual (without its
    guard bits) put back in their places give the phase modulo
    [2 ^ INPUT_BITS]: the decomposition of lines 146-149 loses nothing of
    the low [INPUT_BITS] bits and reads nothing above them. *)
Theorem X2_fields_reassemble (phase : Z) :
  compose_phase (quadrant_bit1 phase) (quadrant_bit0 phase) (index_of phase)
                (residual_of phase / 2 ^ Z_EXTRA_BITS) = phase mod 2 ^ INPUT_BITS.
Proof.
  exact (phase_fields_reassemble phase).
Qed.

(** X4: conversely every choice of quadrant bits, index in
    [0, TABLE_SIZE) and residual bits in [0, 2 ^ CORDIC_BITS) is the
    decomposition of a phase: the phase composed of them decomposes into
    them, the residual with its [Z_EXTRA_BITS] guard bits appended. *)
Theorem X4_fields_of_composed_phase (q1 q0 index low : Z) :
  0 <= q1 <= 1 -> 0 <= q0 <= 1 -> 0 <= index < TABLE_SIZE ->
  0 <= low < 2 ^ CORDIC_BITS ->
  0 <= compose_phase q1 q0 index low < FULL_CIRCLE /\
  quadrant_bit1 (compose_phase q1 q0 index low) = q1 /\
  quadrant_bit0 (compose_phase q1 q0 index low) = q0 /\
  index_of (compose_phase q1 q0 index low) = index /\
  residual_of (compose_phase q1 q0 index low) = low * 2 ^ Z_EXTRA_BITS.
Proof.
  intros H1 H0 Hi Hl.
  split; [| exact (fields_of_compose q1 q0 index low H1 H0 Hi Hl)].
  unfold compose_phase.
  change TABLE_SIZE with (2 ^ 11) in Hi. change CORDIC_BITS with 19 in *.
  change (19 + INDEX_BITS + 1) with 31. change (19 + INDEX_BITS) with 30.
  change FULL_CIRCLE with (2 ^ 32). lia.
Qed.

(** ** What the trace shows *)

Lemma cordic_loop_rows (t : tables) (n : nat) :
  forall (k : nat) (st : state) (r : state * list out_line),
    cordic_loop t true (seq k n) st = Ok r ->
    length (snd r) = n /\
    forall j, (j < n)%nat ->
      exists stj,
        (r' <- cordic_loop t false (seq k (S j)) st ;; Ok (fst r')) = Ok stj /\
        nth_error (snd r) j = Some (row_of stj).
Proof.
  induction n as [| n IH]; intros k st r; cbn [seq cordic_loop].
  - intros H. injection H as <-. split; [reflexivity | intros j Hj; lia].
  - destruct (cordic_step t k st) as [st1 | f] eqn:Hstep; cbn [bind]; [| discriminate].
    destruct (cordic_loop t true (seq (S k) n) st1) as [r1 | f] eqn:Hloop;
      cbn [bind]; [| discriminate].
    intros H. injection H as <-. cbn [snd fst trace_row app length].
    destruct (IH (S k) st1 r1 Hloop) as [Hlen Hrows].
    split; [rewrite Hlen; reflexivity |].
    intros [| j] Hj.
    + exists st1. cbn [seq cordic_loop]. rewrite ?Hstep. cbn [bind fst nth_error].
      split; reflexivity.
    + destruct (Hrows j ltac:(lia)) as (stj & Hpre & Hnth).
      exists stj. split; [| exact Hnth].
      change (seq k (S (S j))) with (k :: seq (S k) (S j)).
      cbn [cordic_loop]. rewrite ?Hstep. cbn [bind].
      destruct (cordic_loop t false (seq (S k) (S j)) st1) as [r2 | f2];
        cbn [bind fst] in *; [exact Hpre | discriminate Hpre].
Qed.

(** X5: a call with [show] set that returns has printed
    [CORDIC_REPS + 2] lines: the header, the starting vector and angle,
    and after each pass of the loop the accumulators that pass left, so
    that line [n + 1] shows the state after [n] passes and the last line
    the accumulators the outputs are taken from. *)
Theorem X5_trace_rows (t : tables) (phase : Z) (a : answer) :
  cordic_sine_cosine t phase true = Ok a ->
  length (printed a) = (CORDIC_REPS + 2)%nat /\
  nth_error (printed a) 0 = Some Header /\
  (forall n, (n <= CORDIC_REPS)%nat ->
     exists st, cordic_prefix t phase n = Ok st /\
                nth_error (printed a) (S n) = Some (row_of st)) /\
  (exists st, nth_error (printed a) (S CORDIC_REPS) = Some (row_of st) /\
              sin_value a = finish (flip_sin_sign phase) (sy st) /\
              cos_value a = finish (flip_cos_sign phase) (sx st)).
Proof.
  unfold cordic_sine_cosine, cordic_prefix.
  destruct (cordic_start t phase) as [st0 | f]; cbn [bind]; [| discriminate].
  destruct (cordic_loop t true (seq 0 CORDIC_REPS) st0) as [r | f] eqn:Hloop;
    cbn [bind]; [| discriminate].
  intros H. injection H as <-. cbn [printed sin_value cos_value trace_row app].
  destruct (cordic_loop_rows t CORDIC_REPS 0 st0 r Hloop) as [Hlen Hrows].
  assert (Hall : forall n, (n <= CORDIC_REPS)%nat ->
            exists st, (r0 <- cordic_loop t false (seq 0 n) st0 ;; Ok (fst r0)) = Ok st /\
                       nth_error (row_of st0 :: snd r) n = Some (row_of st)).
  { intros [| n] Hn.
    - exists st0. split; reflexivity.
    - destruct (Hrows n ltac:(lia)) as (st & Hpre & Hnth). exists st. auto. }
  split; [cbn [length]; rewrite Hlen; reflexivity |].
  split; [reflexivity |].
  split; [exact Hall |].
  destruct (Hall CORDIC_REPS (le_n _)) as (st & Hpre & Hnth).
  exists st. split; [exact Hnth |].
  pose proof (cordic_loop_state_show t true (seq 0 CORDIC_REPS) st0) as Hs.
  rewrite Hloop, Hpre in Hs. cbn [bind] in Hs.
  assert (fst r = st) by congruence. subst st. split; reflexivity.
Qed.

(** ** The starting angle *)

Lemma cordic_start_angle (t : tables) (phase : Z) (st : state) :
  cordic_start t phase = Ok st -> sz st = spec_folded phase - TARGET.
Proof.
  rewrite cordic_start_spec. unfold spec_start. intros Hs.
  change (2 ^ (CORDIC_BITS + Z_EXTRA_BITS - 1)) with TARGET in Hs.
  destruct (spec_quadrant_bit0 phase);
    destruct (read (initial t) (spec_index phase)) as [u | ];
    destruct (read (initial t) (2 ^ INDEX_BITS - 1 - spec_index phase)) as [v | ];
    cbn [bind] in Hs; try discriminate Hs;
    injection Hs as <-; reflexivity.
Qed.

Lemma cordic_start_angle_bound (t : tables) (phase : Z) (st : state) :
  cordic_start t phase = Ok st -> Z.abs (sz st) <= TARGET.
Proof.
  intros Hs. rewrite (cordic_start_angle t phase st Hs).
  pose proof (spec_folded_range phase). change TARGET with (2 ^ 20). lia.
Qed.

(** X6: the angle accumulator the loop starts from lies within
    [TARGET] of zero and is a multiple of [2 ^ Z_EXTRA_BITS]; it reaches
    [+ TARGET] only with quadrant bit 0 set (and residual 0) and
    [- TARGET] only with quadrant bit 0 clear (and residual 0). *)
Theorem X6_start_angle_range (t : tables) (phase : Z) (st : state) :
  cordic_start t phase = Ok st ->
  - TARGET <= sz st <= TARGET /\
  (sz st) mod 2 ^ Z_EXTRA_BITS = 0 /\
  (sz st = TARGET -> quadrant_bit0 phase = 1 /\ residual_of phase = 0) /\
  (sz st = - TARGET -> quadrant_bit0 phase = 0 /\ residual_of phase = 0).
Proof.
  rewrite cordic_start_spec. unfold spec_start.
  intros Hs.
  assert (Hsz : sz st = spec_folded phase - 2 ^ 20).
  { destruct (spec_quadrant_bit0 phase);
      destruct (read (initial t) (spec_index phase)) as [u | ];
      destruct (read (initial t) (2 ^ INDEX_BITS - 1 - spec_index phase)) as [v | ];
      cbn [bind] in Hs; try discriminate Hs;
      injection Hs as <-; reflexivity. }
  clear Hs. rewrite Hsz.
  pose proof (quadrant_bit0_testbit phase) as Hb.
  rewrite residual_of_spec.
  unfold spec_folded, spec_quadrant_bit0, spec_residual.
  change (INPUT_BITS - 2) with 30. change (CORDIC_BITS + Z_EXTRA_BITS) with 21.
  change CORDIC_BITS with 19. change Z_EXTRA_BITS with 2. change TARGET with (2 ^ 20).
  pose proof (Z.mod_pos_bound phase (2 ^ 19) ltac:(lia)) as Hr.
  pose proof (quadrant_bit0_range phase) as Hq.
  destruct (Z.testbit phase 30); cbn [negb] in Hb.
  - assert (quadrant_bit0 phase = 1).
    { destruct Hq as [E | E]; [rewrite E in Hb; discriminate Hb | exact E]. }
    split; [lia |]. split.
    + replace (2 ^ 21 - phase mod 2 ^ 19 * 2 ^ 2 - 2 ^ 20)
        with ((2 ^ 18 - phase mod 2 ^ 19) * 2 ^ 2) by lia.
      apply Z.mod_mul. lia.
    + split; intros; split; lia.
  - assert (quadrant_bit0 phase = 0).
    { destruct Hq as [E | E]; [exact E | rewrite E in Hb; discriminate Hb]. }
    split; [lia |]. split.
    + replace (phase mod 2 ^ 19 * 2 ^ 2 - 2 ^ 20)
        with ((phase mod 2 ^ 19 - 2 ^ 18) * 2 ^ 2) by lia.
      apply Z.mod_mul. lia.
    + split; intros; split; lia.
Qed.

(** ** The opposite angle and the mirrored angle *)

Lemma neg_phase_fields (p : Z) :
  p mod 2 ^ CORDIC_BITS <> 0 ->
  quadrant_bit1 (neg_phase p) = 1 - quadrant_bit1 p /\
  quadrant_bit0 (neg_phase p) = 1 - quadrant_bit0 p /\
  index_of (neg_phase p) = TABLE_SIZE - 1 - index_of p /\
  residual_of (neg_phase p) = 2 ^ (CORDIC_BITS + Z_EXTRA_BITS) - residual_of p.
Proof.
  intros Hr. change CORDIC_BITS with 19 in Hr.
  pose proof (phase_fields_reassemble p) as Hp.
  pose proof (quadrant_bit1_range p) as R1.
  pose proof (quadrant_bit0_range p) as R0.
  pose proof (index_of_range p) as Ri.
  pose proof (residual_of_spec p) as Hres.
  pose proof (Z.mod_pos_bound p (2 ^ 19) ltac:(lia)) as Rl.
  rewrite Hres in Hp. change Z_EXTRA_BITS with 2 in Hp.
  rewrite Z.div_mul in Hp by lia.
  assert (Hneg : neg_phase p =
                 compose_phase (1 - quadrant_bit1 p) (1 - quadrant_bit0 p)
                               (TABLE_SIZE - 1 - index_of p) (2 ^ 19 - p mod 2 ^ 19)).
  { unfold neg_phase. change FULL_CIRCLE with (2 ^ 32).
    rewrite Z.mod_opp_l_nz; [| lia |].
    - rewrite <- Hp. unfold compose_phase.
      change (CORDIC_BITS + INDEX_BITS + 1) with 31.
      change (CORDIC_BITS + INDEX_BITS) with 30. change CORDIC_BITS with 19.
      change TABLE_SIZE with (2 ^ 11). lia.
    - rewrite <- Hp. unfold compose_phase.
      change (CORDIC_BITS + INDEX_BITS + 1) with 31.
      change (CORDIC_BITS + INDEX_BITS) with 30. change CORDIC_BITS with 19.
      change TABLE_SIZE with (2 ^ 11) in Ri. lia. }
  rewrite Hneg, Hres.
  destruct (fields_of_compose (1 - quadrant_bit1 p) (1 - quadrant_bit0 p)
              (TABLE_SIZE - 1 - index_of p) (2 ^ 19 - p mod 2 ^ 19))
    as (H1 & H0 & Hi & Hl); try lia.
  { change CORDIC_BITS with 19. lia. }
  rewrite H1, H0, Hi, Hl.
  change (CORDIC_BITS + Z_EXTRA_BITS) with 21. change Z_EXTRA_BITS with 2.
  repeat split; lia.
Qed.

Lemma mirror_phase_half_turn (p : Z) : mirror_phase p = half_turn (neg_phase p).
Proof.
  unfold mirror_phase, half_turn, neg_phase.
  rewrite Z.add_mod_idemp_l by (change FULL_CIRCLE with 4294967296; lia).
  f_equal. lia.
Qed.

(** A phase with the other quadrant bit 0, the mirrored index and the
    complementary residual starts the loop from the same state. *)
Lemma cordic_start_mirrored (t : tables) (p q : Z) :
  quadrant_bit0 q = 1 - quadrant_bit0 p ->
  index_of q = TABLE_SIZE - 1 - index_of p ->
  residual_of q = 2 ^ (CORDIC_BITS + Z_EXTRA_BITS) - residual_of p ->
  cordic_start t q = cordic_start t p.
Proof.
  intros H0 Hi Hr. unfold cordic_start, fold_residual. rewrite H0, Hi, Hr.
  pose proof (residual_of_range p) as Rp.
  change (Z.shiftl 1 (CORDIC_BITS + Z_EXTRA_BITS)) with (2 ^ 21).
  change (CORDIC_BITS + Z_EXTRA_BITS) with 21.
  replace (TABLE_SIZE - 1 - (TABLE_SIZE - 1 - index_of p)) with (index_of p) by lia.
  replace (2 ^ 21 - (2 ^ 21 - residual_of p)) with (residual_of p) by lia.
  rewrite (wrap64_id (residual_of p)) by (unfold in_int64; lia).
  rewrite (wrap64_id (2 ^ 21 - residual_of p)) by (unfold in_int64; lia).
  destruct (quadrant_bit0_range p) as [-> | ->]; reflexivity.
Qed.

Lemma neg_phase_prefix (t : tables) (p : Z) (n : nat) :
  p mod 2 ^ CORDIC_BITS <> 0 ->
  cordic_prefix t (neg_phase p) n = cordic_prefix t p n.
Proof.
  intros Hr. destruct (neg_phase_fields p Hr) as (_ & H0 & Hi & Hres).
  unfold cordic_prefix. rewrite (cordic_start_mirrored t p _ H0 Hi Hres). reflexivity.
Qed.

Lemma rcos_cordic_sine_cosine (t : tables) (z : Z) (show : bool) :
  rcos (cordic_sine_cosine t z show) =
  st <- cordic_prefix t z CORDIC_REPS ;; Ok (finish (flip_cos_sign z) (sx st)).
Proof.
  pose proof (values_cordic_sine_cosine t z show) as Hv.
  unfold rcos, values in *.
  destruct (cordic_sine_cosine t z show) as [a | f];
    destruct (cordic_prefix t z CORDIC_REPS) as [st | f']; cbn [bind] in *;
    try discriminate Hv; try congruence.
Qed.

Lemma rsin_cordic_sine_cosine (t : tables) (z : Z) (show : bool) :
  rsin (cordic_sine_cosine t z show) =
  st <- cordic_prefix t z CORDIC_REPS ;; Ok (finish (flip_sin_sign z) (sy st)).
Proof.
  pose proof (values_cordic_sine_cosine t z show) as Hv.
  unfold rsin, values in *.
  destruct (cordic_sine_cosine t z show) as [a | f];
    destruct (cordic_prefix t z CORDIC_REPS) as [st | f']; cbn [bind] in *;
    try discriminate Hv; try congruence.
Qed.

Lemma neg_phase_flip_cos (p : Z) :
  p mod 2 ^ CORDIC_BITS <> 0 -> flip_cos_sign (neg_phase p) = flip_cos_sign p.
Proof.
  intros Hr. destruct (neg_phase_fields p Hr) as (H1 & H0 & _).
  unfold flip_cos_sign. rewrite H1, H0.
  destruct (quadrant_bit1_range p) as [-> | ->];
    destruct (quadrant_bit0_range p) as [-> | ->]; reflexivity.
Qed.

Lemma neg_phase_flip_sin (p : Z) :
  p mod 2 ^ CORDIC_BITS <> 0 -> flip_sin_sign (neg_phase p) = 1 - flip_sin_sign p.
Proof.
  intros Hr. destruct (neg_phase_fields p Hr) as (H1 & _). exact H1.
Qed.

(** X7: the cosine is even, exactly: for any tables and any phase whose
    residual bits are not all zero, the call at the opposite phase
    [(- phase) mod FULL_CIRCLE] returns the very same [cos_value] (or
    stops on the same fault). *)
Theorem X7_cosine_even (t : tables) (phase : Z) (show : bool) :
  phase mod 2 ^ CORDIC_BITS <> 0 ->
  rcos (cordic_sine_cosine t (neg_phase phase) show) =
  rcos (cordic_sine_cosine t phase show).
Proof.
  intros Hr. rewrite !rcos_cordic_sine_cosine.
  rewrite (neg_phase_prefix t phase _ Hr), (neg_phase_flip_cos phase Hr).
  reflexivity.
Qed.

(** X8: the sine is symmetric about the quarter circle, exactly: for any
    tables and any phase whose residual bits are not all zero, the call
    at [(FULL_CIRCLE / 2 - phase) mod FULL_CIRCLE] returns the very same
    [sin_value] (or stops on the same fault). *)
Theorem X8_sine_mirrored (t : tables) (phase : Z) (show : bool) :
  phase mod 2 ^ CORDIC_BITS <> 0 ->
  rsin (cordic_sine_cosine t (mirror_phase phase) show) =
  rsin (cordic_sine_cosine t phase show).
Proof.
  intros Hr. rewrite !rsin_cordic_sine_cosine.
  rewrite mirror_phase_half_turn, half_turn_prefix, half_turn_flip_sin.
  rewrite (neg_phase_prefix t phase _ Hr), (neg_phase_flip_sin phase Hr).
  replace (1 - (1 - flip_sin_sign phase)) with (flip_sin_sign phase) by lia.
  reflexivity.
Qed.

Lemma mirror_phase_prefix (t : tables) (p : Z) (n : nat) :
  p mod 2 ^ CORDIC_BITS <> 0 ->
  cordic_prefix t (mirror_phase p) n = cordic_prefix t p n.
Proof.
  intros Hr. rewrite mirror_phase_half_turn, half_turn_prefix.
  exact (neg_phase_prefix t p n Hr).
Qed.

Lemma mirror_phase_flip_cos (p : Z) :
  p mod 2 ^ CORDIC_BITS <> 0 -> flip_cos_sign (mirror_phase p) = 1 - flip_cos_sign p.
Proof.
  intros Hr. rewrite mirror_phase_half_turn, half_turn_flip_cos.
  rewrite (neg_phase_flip_cos p Hr). reflexivity.
Qed.

Lemma mirror_phase_flip_sin (p : Z) :
  p mod 2 ^ CORDIC_BITS <> 0 -> flip_sin_sign (mirror_phase p) = flip_sin_sign p.
Proof.
  intros Hr. rewrite mirror_phase_half_turn, half_turn_flip_sin.
  rewrite (neg_phase_flip_sin p Hr). lia.
Qed.

(** X9: on generated tables within range, for a phase whose residual
    bits are not all zero, the sine at the opposite phase and the cosine
    at the mirrored phase are the negations of the sine and cosine at the
    phase, up to one unit from the final shift; the other output of each
    is unchanged. *)
Theorem X9_odd_sine_mirrored_cosine (fangle finit : nat -> Z) (phase : Z) (show : bool) :
  angles_in_range fangle ->
  initial_in_range finit ->
  phase mod 2 ^ CORDIC_BITS <> 0 ->
  exists a b c,
    cordic_sine_cosine (setup_tables fangle finit) phase show = Ok a /\
    cordic_sine_cosine (setup_tables fangle finit) (neg_phase phase) show = Ok b /\
    cordic_sine_cosine (setup_tables fangle finit) (mirror_phase phase) show = Ok c /\
    cos_value b = cos_value a /\
    - 1 <= sin_value b + sin_value a <= 0 /\
    sin_value c = sin_value a /\
    - 1 <= cos_value c + cos_value a <= 0.
Proof.
  intros Ha Hi Hr.
  destruct (cordic_sine_cosine_generated fangle finit phase show Ha Hi)
    as (st & a & Hpre & (Hx & Hy & _) & Hcall & Hsin & Hcos).
  destruct (cordic_sine_cosine_generated fangle finit (neg_phase phase) show Ha Hi)
    as (stb & b & Hpreb & _ & Hcallb & Hsinb & Hcosb).
  destruct (cordic_sine_cosine_generated fangle finit (mirror_phase phase) show Ha Hi)
    as (stc & c & Hprec & _ & Hcallc & Hsinc & Hcosc).
  rewrite (neg_phase_prefix _ phase _ Hr) in Hpreb.
  rewrite (mirror_phase_prefix _ phase _ Hr) in Hprec.
  assert (stb = st) by congruence. assert (stc = st) by congruence. subst stb stc.
  rewrite (neg_phase_flip_sin phase Hr) in Hsinb.
  rewrite (neg_phase_flip_cos phase Hr) in Hcosb.
  rewrite (mirror_phase_flip_sin phase Hr) in Hsinc.
  rewrite (mirror_phase_flip_cos phase Hr) in Hcosc.
  pose proof (finish_flip (flip_sin_sign phase) (sy st)
                (quadrant_bit1_range phase) ltac:(lia)) as Hs.
  pose proof (finish_flip (flip_cos_sign phase) (sx st)
                (flip_cos_sign_range phase) ltac:(lia)) as Hc.
  exists a, b, c.
  split; [exact Hcall |]. split; [exact Hcallb |]. split; [exact Hcallc |].
  split; [congruence |]. split; [rewrite Hsin, Hsinb; lia |].
  split; [congruence |]. rewrite Hcos, Hcosc. lia.
Qed.

(** ** The whole call on unbounded integers *)

Lemma quadrant_bit1_testbit (z : Z) :
  (quadrant_bit1 z =? 0) = negb (Z.testbit z 31).
Proof.
  rewrite quadrant_bit1_spec.
  rewrite <- Z.shiftr_div_pow2 by lia.
  rewrite <- Z.bit0_mod, Z.shiftr_spec by lia.
  change (0 + 31) with 31.
  destruct (Z.testbit z 31); reflexivity.
Qed.

Lemma flip_cos_sign_testbit (z : Z) :
  (flip_cos_sign z =? 0) = negb (xorb (Z.testbit z 31) (Z.testbit z 30)).
Proof.
  pose proof (quadrant_bit1_testbit z) as H1.
  pose proof (quadrant_bit0_testbit z) as H0.
  unfold flip_cos_sign.
  destruct (quadrant_bit1_range z) as [E1 | E1];
    destruct (quadrant_bit0_range z) as [E0 | E0];
    rewrite E1, E0 in *; cbn [Z.eqb] in H1, H0;
    destruct (Z.testbit z 31); destruct (Z.testbit z 30);
    try discriminate H1; try discriminate H0; reflexivity.
Qed.

Lemma finish_floor (f v : Z) :
  Z.abs v < 2 ^ 63 ->
  finish f v = (if f =? 0 then v else - v) / 2 ^ OUTPUT_EXTRA_BITS.
Proof.
  intros Hv. unfold finish, pre_shift.
  rewrite Z.shiftr_div_pow2 by discriminate.
  destruct (f =? 0); [reflexivity |].
  rewrite wrap64_id by (unfold in_int64; lia). reflexivity.
Qed.

(** X10: on generated tables within range the C function computes,
    without any operation leaving the 64-bit range, exactly the rotation
    of section 4.2 on unbounded integers: the starting vector and folded
    residual, [CORDIC_REPS] steps [spec_step], then each accumulator
    negated or not by the quadrant and divided by
    [2 ^ OUTPUT_EXTRA_BITS] rounding down. *)
Theorem X10_call_is_spec_on_integers (fangle finit : nat -> Z) (phase : Z) (show : bool) :
  angles_in_range fangle ->
  initial_in_range finit ->
  values (cordic_sine_cosine (setup_tables fangle finit) phase show) =
  spec_sine_cosine fangle (initial (setup_tables fangle finit)) phase.
Proof.
  intros Ha Hi.
  destruct (cordic_prefix_exact fangle finit Ha Hi phase CORDIC_REPS (le_n _))
    as (st0 & Hs0 & Hpre & (Hx & Hy & _)).
  rewrite values_cordic_sine_cosine, Hpre. cbn [bind].
  unfold spec_sine_cosine. rewrite <- cordic_start_spec, Hs0. cbn [bind].
  rewrite !finish_floor by lia.
  unfold flip_sin_sign. rewrite quadrant_bit1_testbit, flip_cos_sign_testbit.
  change (INPUT_BITS - 1) with 31. change (INPUT_BITS - 2) with 30.
  destruct (Z.testbit phase 31); destruct (Z.testbit phase 30);
    cbn [negb xorb]; reflexivity.
Qed.

(** ** Width of the accumulators *)

Lemma shiftr_abs_bound (v b s : Z) :
  0 <= s -> Z.abs v <= b -> Z.abs (Z.shiftr v s) <= Z.shiftr b s + 1.
Proof.
  intros Hs Hv. rewrite !Z.shiftr_div_pow2 by assumption.
  assert (Hd : 0 < 2 ^ s) by (apply Z.pow_pos_nonneg; lia).
  pose proof (Z.div_le_mono v b (2 ^ s) Hd ltac:(lia)) as Hup.
  pose proof (Z.div_le_mono (- b) v (2 ^ s) Hd ltac:(lia)) as Hlo.
  pose proof (Z.div_mod b (2 ^ s) ltac:(lia)) as Eb.
  pose proof (Z.div_mod (- b) (2 ^ s) ltac:(lia)) as Enb.
  pose proof (Z.mod_pos_bound b (2 ^ s) Hd) as Rb.
  pose proof (Z.mod_pos_bound (- b) (2 ^ s) Hd) as Rnb.
  assert (- (b / 2 ^ s) - 1 <= - b / 2 ^ s) by nia.
  lia.
Qed.

Lemma spec_step_width (rotation shift b : Z) (st : state) :
  0 <= shift -> Z.abs (sx st) <= b -> Z.abs (sy st) <= b ->
  Z.abs (sx (spec_step rotation shift st)) <= b + Z.shiftr b shift + 1 /\
  Z.abs (sy (spec_step rotation shift st)) <= b + Z.shiftr b shift + 1.
Proof.
  intros Hs Hx Hy. unfold spec_step, sign; cbn [sx sy].
  pose proof (shiftr_abs_bound (sx st) b shift Hs Hx).
  pose proof (shiftr_abs_bound (sy st) b shift Hs Hy).
  destruct (sz st <? 0); lia.
Qed.

Lemma acc_bound_succ (n : nat) :
  acc_bound (S n) =
  acc_bound n + Z.shiftr (acc_bound n) (INDEX_BITS + Z.of_nat n) + 1.
Proof.
  unfold acc_bound. rewrite seq_S, fold_left_app. reflexivity.
Qed.

Lemma spec_loop_width (fangle : nat -> Z) (st0 : state) (n : nat) :
  Z.abs (sx st0) <= OUTPUT_SCALE * 2 ^ OUTPUT_EXTRA_BITS ->
  Z.abs (sy st0) <= OUTPUT_SCALE * 2 ^ OUTPUT_EXTRA_BITS ->
  Z.abs (sx (spec_loop fangle (seq 0 n) st0)) <= acc_bound n /\
  Z.abs (sy (spec_loop fangle (seq 0 n) st0)) <= acc_bound n.
Proof.
  intros Hx Hy. induction n as [| n [IHx IHy]].
  - split; assumption.
  - rewrite spec_loop_snoc, acc_bound_succ.
    apply spec_step_width; [change INDEX_BITS with 11; lia | exact IHx | exact IHy].
Qed.

Lemma acc_bound_le_last (n : nat) :
  (n <= CORDIC_REPS)%nat -> acc_bound n <= acc_bound CORDIC_REPS.
Proof.
  intros Hn.
  assert (Hall : forallb (fun k => acc_bound k <=? acc_bound CORDIC_REPS)
                         (seq 0 (S CORDIC_REPS)) = true) by (vm_compute; reflexivity).
  rewrite forallb_forall in Hall.
  apply Z.leb_le. apply Hall. apply in_seq. lia.
Qed.

(** X11: on generated tables within range the accumulators [x] and [y]
    never grow by more than a thousandth: after every pass they are
    within 34393303740, below [2 ^ 35 + 2 ^ 25 + 2 ^ 14], so 37-bit signed
    registers hold them, and both outputs are within
    [OUTPUT_SCALE + 2097836]. *)
Theorem X11_accumulator_width (fangle finit : nat -> Z) (phase : Z) (show : bool) :
  angles_in_range fangle ->
  initial_in_range finit ->
  (forall n, (n <= CORDIC_REPS)%nat ->
     exists st, cordic_prefix (setup_tables fangle finit) phase n = Ok st /\
                Z.abs (sx st) <= 34393303740 /\ Z.abs (sy st) <= 34393303740) /\
  (exists a, cordic_sine_cosine (setup_tables fangle finit) phase show = Ok a /\
             Z.abs (sin_value a) <= OUTPUT_SCALE + 2097836 /\
             Z.abs (cos_value a) <= OUTPUT_SCALE + 2097836).
Proof.
  intros Ha Hi.
  assert (Hw : forall n, (n <= CORDIC_REPS)%nat ->
     exists st, cordic_prefix (setup_tables fangle finit) phase n = Ok st /\
                Z.abs (sx st) <= 34393303740 /\ Z.abs (sy st) <= 34393303740).
  { intros n Hn.
    destruct (cordic_prefix_exact fangle finit Ha Hi phase n Hn)
      as (st0 & Hs0 & Hpre & _).
    destruct (cordic_start_generated fangle finit Hi phase) as (st0' & Hs0' & Hb).
    assert (st0' = st0) by congruence. subst st0'.
    destruct Hb as (Hx & Hy & _).
    destruct (spec_loop_width fangle st0 n) as [Wx Wy];
      [change (OUTPUT_SCALE * 2 ^ OUTPUT_EXTRA_BITS) with (2 ^ 35); lia .. |].
    pose proof (acc_bound_le_last n Hn) as Hle.
    change (acc_bound CORDIC_REPS) with 34393303740 in Hle.
    eexists. split; [exact Hpre |]. lia. }
  split; [exact Hw |].
  destruct (cordic_sine_cosine_generated fangle finit phase show Ha Hi)
    as (st & a & Hpre & _ & Hcall & Hsin & Hcos).
  destruct (Hw CORDIC_REPS (le_n _)) as (st' & Hpre' & Wx & Wy).
  assert (st' = st) by congruence. subst st'.
  exists a. split; [exact Hcall |].
  rewrite Hsin, Hcos, !finish_floor by lia.
  change (2 ^ OUTPUT_EXTRA_BITS) with 16. change OUTPUT_SCALE with (2 ^ 31).
  assert (Hdiv : forall v, Z.abs v <= 34393303740 -> Z.abs (v / 16) <= 2 ^ 31 + 2097836).
  { intros v Hv.
    pose proof (Z.div_mod v 16 ltac:(lia)). pose proof (Z.mod_pos_bound v 16 ltac:(lia)).
    lia. }
  split; apply Hdiv.
  - destruct (flip_sin_sign phase =? 0); lia.
  - destruct (flip_cos_sign phase =? 0); lia.
Qed.

(** ** The angle accumulator with a constant table *)

Lemma cordic_loop_invariant (t : tables) (show : bool) (P : state -> Prop)
  (idx : list nat) :
  (forall i st st1, In i idx -> P st -> cordic_step t i st = Ok st1 -> P st1) ->
  forall st r, P st -> cordic_loop t show idx st = Ok r -> P (fst r).
Proof.
  induction idx as [| i rest IH]; intros Hstep st r HP; cbn [cordic_loop].
  - intros H. injection H as <-. exact HP.
  - destruct (cordic_step t i st) as [st1 | f] eqn:E; cbn [bind]; [| discriminate].
    destruct (cordic_loop t show rest st1) as [r1 | f] eqn:El; cbn [bind];
      [| discriminate].
    intros H. injection H as <-. cbn [fst].
    apply (IH (fun j s s1 Hj => Hstep j s s1 (or_intror Hj)) st1 r1); [| exact El].
    exact (Hstep i st st1 (or_introl eq_refl) HP E).
Qed.

(** X12: when [setup] stored the same angle [a] in every entry of
    [angles], the case its closing note announces, with
    [TARGET <= 2 * a] and [a] an [int32_t], the angle accumulator [z]
    stays within [2 * a] of zero after every pass, for every phase and
    whatever is in [initial]: doubling it each pass does not let it
    grow. *)
Theorem X12_constant_angle_bounds_z (fangle finit : nat -> Z) (a : Z) (phase : Z)
  (n : nat) :
  (forall i, (i < CORDIC_REPS)%nat -> fangle i = a) ->
  TARGET <= 2 * a -> a < 2 ^ 31 ->
  (n <= CORDIC_REPS)%nat ->
  exists st, cordic_prefix (setup_tables fangle finit) phase n = Ok st /\
             Z.abs (sz st) <= 2 * a.
Proof.
  intros Hconst Hlo Hhi Hn. change TARGET with (2 ^ 20) in Hlo.
  unfold cordic_prefix.
  destruct (cordic_start_total (setup_tables fangle finit) phase
              (setup_tables_well_sized fangle finit)) as [st0 Hs0].
  pose proof (cordic_start_angle_bound (setup_tables fangle finit) phase st0 Hs0) as Hz0.
  rewrite Hs0. cbn [bind].
  assert (Hidx : Forall (fun i => (i < CORDIC_REPS)%nat) (seq 0 n)).
  { apply Forall_forall. intros i Hi. apply in_seq in Hi. lia. }
  destruct (cordic_loop_generated_total fangle finit false (seq 0 n) Hidx st0) as [r Hr].
  rewrite Hr. cbn [bind]. exists (fst r). split; [reflexivity |].
  apply (cordic_loop_invariant (setup_tables fangle finit) false
           (fun s => Z.abs (sz s) <= 2 * a) (seq 0 n)) with (st := st0);
    [| change TARGET with (2 ^ 20) in Hz0; lia | exact Hr].
  intros i st st1 Hi HP Hstep.
  apply in_seq in Hi.
  rewrite cordic_step_generated in Hstep by lia. cbv zeta in Hstep.
  rewrite (Hconst i ltac:(lia)) in Hstep.
  assert (Hsz : sz st1 =
                wrap64 (Z.shiftl (wrap64 (sz st + (if sz st <? 0 then a
                                                   else wrap32 (- a)))) 1)).
  { destruct st1 as [x1 y1 z1]. cbn [sz].
    assert (E : forall x y z x' y' z', @Ok state (mkState x y z) = Ok (mkState x' y' z') ->
                                       z = z').
    { intros x y z x' y' z' H. injection H as _ _ ->. reflexivity. }
    symmetry. exact (E _ _ _ _ _ _ Hstep). }
  rewrite Hsz. clear Hsz Hstep.
  rewrite (wrap32_id (- a)) by lia.
  rewrite Z.shiftl_mul_pow2 by lia. change (2 ^ 1) with 2.
  destruct (Z.ltb_spec (sz st) 0).
  - rewrite (wrap64_id (sz st + a)) by (unfold in_int64; lia).
    rewrite wrap64_id by (unfold in_int64; lia). lia.
  - rewrite (wrap64_id (sz st + - a)) by (unfold in_int64; lia).
    rewrite wrap64_id by (unfold in_int64; lia). lia.
Qed.

(** ** A quarter circle further *)

Lemma quarter_turn_fields (p : Z) :
  quadrant_bit1 (quarter_turn p) = Z.lxor (quadrant_bit1 p) (quadrant_bit0 p) /\
  quadrant_bit0 (quarter_turn p) = 1 - quadrant_bit0 p /\
  index_of (quarter_turn p) = index_of p /\
  residual_of (quarter_turn p) = residual_of p.
Proof.
  pose proof (phase_fields_reassemble p) as Hp.
  pose proof (index_of_range p) as Ri.
  pose proof (residual_of_spec p) as Hres.
  pose proof (Z.mod_pos_bound p (2 ^ 19) ltac:(lia)) as Rl.
  rewrite Hres in Hp. change Z_EXTRA_BITS with 2 in Hp.
  rewrite Z.div_mul in Hp by lia.
  assert (Hq : quarter_turn p =
               compose_phase (Z.lxor (quadrant_bit1 p) (quadrant_bit0 p))
                             (1 - quadrant_bit0 p) (index_of p) (p mod 2 ^ 19)).
  { unfold quarter_turn. change FULL_CIRCLE with (2 ^ 32).
    change (2 ^ 32 / 4) with (2 ^ 30).
    rewrite <- Z.add_mod_idemp_l by lia. rewrite <- Hp.
    unfold compose_phase.
    change (CORDIC_BITS + INDEX_BITS + 1) with 31.
    change (CORDIC_BITS + INDEX_BITS) with 30. change CORDIC_BITS with 19.
    change TABLE_SIZE with (2 ^ 11) in Ri.
    destruct (quadrant_bit1_range p) as [-> | ->];
      destruct (quadrant_bit0_range p) as [-> | ->]; cbn [Z.lxor Pos.lxor Z.sub Z.add Z.opp Z.pos_sub].
    - rewrite Z.mod_small by lia. lia.
    - rewrite Z.mod_small by lia. lia.
    - rewrite Z.mod_small by lia. lia.
    - replace (1 * 2 ^ 31 + 1 * 2 ^ 30 + index_of p * 2 ^ 19 + p mod 2 ^ 19 + 2 ^ 30)
        with (0 * 2 ^ 31 + 0 * 2 ^ 30 + index_of p * 2 ^ 19 + p mod 2 ^ 19 + 1 * 2 ^ 32)
        by lia.
      rewrite Z.mod_add by lia. rewrite Z.mod_small by lia. lia. }
  rewrite Hq, Hres.
  apply fields_of_compose.
  - destruct (quadrant_bit1_range p) as [-> | ->];
      destruct (quadrant_bit0_range p) as [-> | ->]; cbn; lia.
  - destruct (quadrant_bit0_range p) as [-> | ->]; lia.
  - exact Ri.
  - exact Rl.
Qed.

Lemma swap_state_sx (st : state) : sx (swap_state st) = sy st.
Proof. reflexivity. Qed.

Lemma swap_state_sy (st : state) : sy (swap_state st) = sx st.
Proof. reflexivity. Qed.

Lemma spec_step_swap (rotation shift : Z) (st : state) :
  sz st <> 0 ->
  spec_step rotation shift (swap_state st) = swap_state (spec_step rotation shift st).
Proof.
  intros Hz. destruct st as [x y z]; cbn [sz] in Hz.
  unfold spec_step, swap_state, sign; cbn [sx sy sz].
  destruct (Z.ltb_spec z 0); destruct (Z.ltb_spec (- z) 0);
    destruct (Z.leb_spec 0 z); destruct (Z.leb_spec 0 (- z)); try lia;
    f_equal; lia.
Qed.

Lemma spec_step_odd_angle (rotation shift : Z) (st : state) :
  rotation mod 2 = 1 -> (sz st) mod 2 = 0 ->
  sz (spec_step rotation shift st) <> 0 /\ (sz (spec_step rotation shift st)) mod 2 = 0.
Proof.
  intros Hr Hz. unfold spec_step; cbn [sz].
  pose proof (Z.div_mod rotation 2 ltac:(lia)).
  pose proof (Z.div_mod (sz st) 2 ltac:(lia)).
  split.
  - destruct (0 <=? sz st); lia.
  - rewrite Z.mul_comm. apply Z.mod_mul. lia.
Qed.

Lemma spec_loop_swap (fangle : nat -> Z) (n : nat) :
  forall (k : nat) (st : state),
    (forall i, (k <= i < k + n)%nat -> fangle i mod 2 = 1) ->
    sz st <> 0 -> (sz st) mod 2 = 0 ->
    spec_loop fangle (seq k n) (swap_state st) =
    swap_state (spec_loop fangle (seq k n) st).
Proof.
  induction n as [| n IH]; intros k st Hodd Hnz Hev.
  - reflexivity.
  - cbn [seq spec_loop fold_left].
    rewrite (spec_step_swap _ _ st Hnz).
    destruct (spec_step_odd_angle (fangle k) (INDEX_BITS + Z.of_nat k) st
                (Hodd k ltac:(lia)) Hev) as [Hnz1 Hev1].
    apply (IH (S k)); [intros i Hi; apply Hodd; lia | exact Hnz1 | exact Hev1].
Qed.

Lemma ok_inj {A : Type} (a b : A) : Ok a = Ok b -> a = b.
Proof.
  intros H. injection H as ->. reflexivity.
Qed.

Lemma quarter_turn_start (fangle finit : nat -> Z) (p : Z) (st0 : state) :
  cordic_start (setup_tables fangle finit) p = Ok st0 ->
  cordic_start (setup_tables fangle finit) (quarter_turn p) = Ok (swap_state st0).
Proof.
  destruct (quarter_turn_fields p) as (_ & H0 & Hi & Hr).
  pose proof (index_of_range p) as Ri. change TABLE_SIZE with 2048 in Ri.
  pose proof (residual_of_range p) as Rr.
  assert (Hx : exists u, read (initial (setup_tables fangle finit)) (index_of p) = Ok u).
  { unfold setup_tables; cbn [initial].
    change (Z.to_nat TABLE_SIZE) with (Z.to_nat 2048).
    rewrite read_map_seq_Z by lia. eauto. }
  assert (Hy : exists v, read (initial (setup_tables fangle finit))
                              (TABLE_SIZE - 1 - index_of p) = Ok v).
  { unfold setup_tables; cbn [initial].
    change (Z.to_nat TABLE_SIZE) with (Z.to_nat 2048). change TABLE_SIZE with 2048.
    rewrite read_map_seq_Z by lia. eauto. }
  destruct Hx as [u Hu]. destruct Hy as [v Hv].
  unfold cordic_start, fold_residual. rewrite H0, Hi, Hr, Hu, Hv.
  change (Z.shiftl 1 (CORDIC_BITS + Z_EXTRA_BITS)) with (2 ^ 21).
  change TARGET with (2 ^ 20).
  assert (W1 : wrap64 (2 ^ 21 - residual_of p) = 2 ^ 21 - residual_of p)
    by (apply wrap64_id; unfold in_int64; lia).
  assert (W2 : wrap64 (2 ^ 21 - residual_of p - 2 ^ 20) = 2 ^ 20 - residual_of p)
    by (rewrite wrap64_id by (unfold in_int64; lia); lia).
  assert (W3 : wrap64 (residual_of p - 2 ^ 20) = residual_of p - 2 ^ 20)
    by (apply wrap64_id; unfold in_int64; lia).
  destruct (quadrant_bit0_range p) as [E | E]; rewrite E.
  - change (1 - 0 =? 0) with false. change (0 =? 0) with true. cbn [bind].
    rewrite W1, W2, W3. intros H. apply ok_inj in H. subst st0.
    unfold swap_state; cbn [sx sy sz]. f_equal. f_equal. lia.
  - change (1 - 1 =? 0) with true. change (1 =? 0) with false. cbn [bind].
    rewrite W1, W2, W3. intros H. apply ok_inj in H. subst st0.
    unfold swap_state; cbn [sx sy sz]. f_equal. f_equal. lia.
Qed.

(** X13: a quarter circle further the sine is the cosine, exactly. On
    generated tables within range whose angles are all odd, for a phase
    whose residual is not the middle of its sector (where the loop would
    start from [z = 0]), the call at [(phase + FULL_CIRCLE / 4) mod
    FULL_CIRCLE] ends with [x] and [y] exchanged: its [sin_value] is the
    [cos_value] at [phase], and its [cos_value] the negation of the
    [sin_value] at [phase] up to one unit. *)
Theorem X13_quarter_turn_exchanges (fangle finit : nat -> Z) (phase : Z) (show : bool) :
  angles_in_range fangle ->
  initial_in_range finit ->
  (forall i, (i < CORDIC_REPS)%nat -> fangle i mod 2 = 1) ->
  phase mod 2 ^ CORDIC_BITS <> 2 ^ (CORDIC_BITS - 1) ->
  exists st a b,
    cordic_prefix (setup_tables fangle finit) phase CORDIC_REPS = Ok st /\
    cordic_prefix (setup_tables fangle finit) (quarter_turn phase) CORDIC_REPS =
      Ok (swap_state st) /\
    cordic_sine_cosine (setup_tables fangle finit) phase show = Ok a /\
    cordic_sine_cosine (setup_tables fangle finit) (quarter_turn phase) show = Ok b /\
    sin_value b = cos_value a /\
    - 1 <= cos_value b + sin_value a <= 0.
Proof.
  intros Ha Hi Hodd Hmid.
  destruct (cordic_prefix_exact fangle finit Ha Hi phase CORDIC_REPS (le_n _))
    as (st0 & Hs0 & Hpre & Hb).
  destruct (cordic_prefix_exact fangle finit Ha Hi (quarter_turn phase) CORDIC_REPS (le_n _))
    as (st0q & Hs0q & Hpreq & _).
  rewrite (quarter_turn_start fangle finit phase st0 Hs0) in Hs0q.
  apply ok_inj in Hs0q. subst st0q.
  pose proof (cordic_start_angle _ _ _ Hs0) as Hz0.
  assert (Hz : sz st0 <> 0 /\ sz st0 mod 2 = 0).
  { rewrite Hz0. clear - Hmid. unfold spec_folded, spec_residual.
    change (CORDIC_BITS + Z_EXTRA_BITS) with 21.
    change (2 ^ (CORDIC_BITS - 1)) with (2 ^ 18) in Hmid.
    change CORDIC_BITS with 19 in Hmid. change CORDIC_BITS with 19.
    change Z_EXTRA_BITS with 2. change TARGET with (2 ^ 20).
    destruct (spec_quadrant_bit0 phase).
    - split; [lia |].
      replace (2 ^ 21 - phase mod 2 ^ 19 * 2 ^ 2 - 2 ^ 20)
        with ((2 ^ 19 - 2 * (phase mod 2 ^ 19)) * 2) by lia.
      apply Z.mod_mul. lia.
    - split; [lia |].
      replace (phase mod 2 ^ 19 * 2 ^ 2 - 2 ^ 20)
        with ((2 * (phase mod 2 ^ 19) - 2 ^ 19) * 2) by lia.
      apply Z.mod_mul. lia. }
  destruct Hz as [Hnz Hev].
  rewrite (spec_loop_swap fangle CORDIC_REPS 0 st0
             (fun i Hi' => Hodd i (proj2 Hi')) Hnz Hev) in Hpreq.
  remember (spec_loop fangle (seq 0 CORDIC_REPS) st0) as st eqn:Est.
  clear Est Hs0 Hz0 Hnz Hev.
  destruct (cordic_sine_cosine_generated fangle finit phase show Ha Hi)
    as (st' & a & Hpre' & _ & Hcall & Hsin & Hcos).
  destruct (cordic_sine_cosine_generated fangle finit (quarter_turn phase) show Ha Hi)
    as (stq & b & Hpreq' & _ & Hcallq & Hsinq & Hcosq).
  rewrite Hpre in Hpre'. apply ok_inj in Hpre'. subst st'.
  rewrite Hpreq in Hpreq'. apply ok_inj in Hpreq'. subst stq.
  rewrite swap_state_sy in Hsinq. rewrite swap_state_sx in Hcosq.
  destruct (quarter_turn_fields phase) as (H1 & H0 & _ & _).
  destruct Hb as (Hx & Hy & _).
  exists st, a, b.
  split; [exact Hpre |]. split; [exact Hpreq |].
  split; [exact Hcall |]. split; [exact Hcallq |].
  split.
  - rewrite Hsinq, Hcos. unfold flip_sin_sign, flip_cos_sign. rewrite H1. reflexivity.
  - rewrite Hcosq, Hsin. unfold flip_cos_sign. rewrite H1, H0.
    replace (Z.lxor (Z.lxor (quadrant_bit1 phase) (quadrant_bit0 phase))
                    (1 - quadrant_bit0 phase)) with (1 - flip_sin_sign phase).
    + pose proof (finish_flip (flip_sin_sign phase) (sy st)
                    (quadrant_bit1_range phase) ltac:(lia)). lia.
    + unfold flip_sin_sign.
      destruct (quadrant_bit1_range phase) as [-> | ->];
        destruct (quadrant_bit0_range phase) as [-> | ->]; reflexivity.
Qed.

(** ** The further properties at a sample input *)

(** At a sector edge, where the residual bits are all zero, the cosine
    at the opposite phase is another number. *)
Example cosine_at_sector_edge :
  (5 * 2 ^ 19) mod 2 ^ CORDIC_BITS = 0 /\
  rcos (cordic_sine_cosine sample_tables (5 * 2 ^ 19) false) = Ok 2141718874 /\
  rcos (cordic_sine_cosine sample_tables (neg_phase (5 * 2 ^ 19)) false) = Ok 2142763429.
Proof. repeat split; vm_compute; reflexivity. Qed.

Lemma X4_fields_of_composed_phase_sample :
  0 <= compose_phase 1 0 306 393938 < FULL_CIRCLE /\
  quadrant_bit1 (compose_phase 1 0 306 393938) = 1 /\
  quadrant_bit0 (compose_phase 1 0 306 393938) = 0 /\
  index_of (compose_phase 1 0 306 393938) = 306 /\
  residual_of (compose_phase 1 0 306 393938) = 393938 * 2 ^ Z_EXTRA_BITS.
Proof.
  apply (X4_fields_of_composed_phase 1 0 306 393938);
    vm_compute; split; discriminate || reflexivity.
Defined.

Lemma X5_trace_rows_sample :
  cordic_sine_cosine sample_tables 123456789 true = Ok sample_traced_answer /\
  length (printed sample_traced_answer) = (CORDIC_REPS + 2)%nat.
Proof.
  assert (H : cordic_sine_cosine sample_tables 123456789 true = Ok sample_traced_answer)
    by (vm_compute; reflexivity).
  split; [exact H |].
  exact (proj1 (X5_trace_rows sample_tables 123456789 sample_traced_answer H)).
Defined.

Lemma X6_start_angle_range_sample :
  cordic_start sample_tables 1234567890 =
    Ok {| sx := 5142216696; sy := 29217521656; sz := -527176 |} /\
  - TARGET <= -527176 <= TARGET.
Proof.
  assert (H : cordic_start sample_tables 1234567890 =
              Ok {| sx := 5142216696; sy := 29217521656; sz := -527176 |})
    by (vm_compute; reflexivity).
  split; [exact H |].
  exact (proj1 (X6_start_angle_range sample_tables 1234567890 _ H)).
Defined.

Lemma X7_cosine_even_sample :
  123456789 mod 2 ^ CORDIC_BITS <> 0 /\
  rcos (cordic_sine_cosine sample_tables (neg_phase 123456789) false) =
  rcos (cordic_sine_cosine sample_tables 123456789 false).
Proof.
  split; [vm_compute; discriminate |].
  apply (X7_cosine_even sample_tables 123456789 false). vm_compute; discriminate.
Defined.

Lemma X8_sine_mirrored_sample :
  123456789 mod 2 ^ CORDIC_BITS <> 0 /\
  rsin (cordic_sine_cosine sample_tables (mirror_phase 123456789) false) =
  rsin (cordic_sine_cosine sample_tables 123456789 false).
Proof.
  split; [vm_compute; discriminate |].
  apply (X8_sine_mirrored sample_tables 123456789 false). vm_compute; discriminate.
Defined.

Lemma X9_odd_sine_mirrored_cosine_sample :
  angles_in_range sample_angles /\
  initial_in_range sample_initial /\
  123456789 mod 2 ^ CORDIC_BITS <> 0 /\
  exists a b c,
    cordic_sine_cosine sample_tables 123456789 false = Ok a /\
    cordic_sine_cosine sample_tables (neg_phase 123456789) false = Ok b /\
    cordic_sine_cosine sample_tables (mirror_phase 123456789) false = Ok c /\
    cos_value b = cos_value a /\
    - 1 <= sin_value b + sin_value a <= 0 /\
    sin_value c = sin_value a /\
    - 1 <= cos_value c + cos_value a <= 0.
Proof.
  split; [exact sample_angles_in_range |].
  split; [exact sample_initial_in_range |].
  split; [vm_compute; discriminate |].
  apply (X9_odd_sine_mirrored_cosine sample_angles sample_initial 123456789 false).
  - exact sample_angles_in_range.
  - exact sample_initial_in_range.
  - vm_compute; discriminate.
Defined.

Lemma X10_call_is_spec_on_integers_sample :
  angles_in_range sample_angles /\
  initial_in_range sample_initial /\
  values (cordic_sine_cosine sample_tables 123456789 false) =
  spec_sine_cosine sample_angles (initial sample_tables) 123456789.
Proof.
  split; [exact sample_angles_in_range |].
  split; [exact sample_initial_in_range |].
  apply (X10_call_is_spec_on_integers sample_angles sample_initial 123456789 false).
  - exact sample_angles_in_range.
  - exact sample_initial_in_range.
Defined.

Lemma X11_accumulator_width_sample :
  angles_in_range sample_angles /\
  initial_in_range sample_initial /\
  exists a, cordic_sine_cosine sample_tables 123456789 false = Ok a /\
            Z.abs (sin_value a) <= OUTPUT_SCALE + 2097836 /\
            Z.abs (cos_value a) <= OUTPUT_SCALE + 2097836.
Proof.
  split; [exact sample_angles_in_range |].
  split; [exact sample_initial_in_range |].
  exact (proj2 (X11_accumulator_width sample_angles sample_initial 123456789 false
                  sample_angles_in_range sample_initial_in_range)).
Defined.

Lemma X12_constant_angle_bounds_z_sample :
  (forall i, (i < CORDIC_REPS)%nat -> sample_angles i = 1335089) /\
  TARGET <= 2 * 1335089 /\ 1335089 < 2 ^ 31 /\ (24 <= CORDIC_REPS)%nat /\
  exists st, cordic_prefix sample_tables 123456789 24 = Ok st /\
             Z.abs (sz st) <= 2 * 1335089.
Proof.
  split; [intros i _; reflexivity |].
  split; [vm_compute; discriminate |].
  split; [lia |].
  split; [unfold CORDIC_REPS; lia |].
  apply (X12_constant_angle_bounds_z sample_angles sample_initial 1335089 123456789 24).
  - intros i _. reflexivity.
  - vm_compute; discriminate.
  - lia.
  - unfold CORDIC_REPS; lia.
Defined.

(** In the middle of a sector, where the loop starts from [z = 0], the
    sine a quarter circle further is another number. *)
Example sine_quarter_turn_at_sector_middle :
  (7 * 2 ^ 19 + 2 ^ 18) mod 2 ^ CORDIC_BITS = 2 ^ (CORDIC_BITS - 1) /\
  rcos (cordic_sine_cosine sample_tables (7 * 2 ^ 19 + 2 ^ 18) false) = Ok 2139619667 /\
  rsin (cordic_sine_cosine sample_tables (quarter_turn (7 * 2 ^ 19 + 2 ^ 18)) false) =
    Ok 2139619668.
Proof. repeat split; vm_compute; reflexivity. Qed.

Lemma X13_quarter_turn_exchanges_sample :
  angles_in_range sample_angles /\
  initial_in_range sample_initial /\
  (forall i, (i < CORDIC_REPS)%nat -> sample_angles i mod 2 = 1) /\
  123456789 mod 2 ^ CORDIC_BITS <> 2 ^ (CORDIC_BITS - 1) /\
  exists a b,
    cordic_sine_cosine sample_tables 123456789 false = Ok a /\
    cordic_sine_cosine sample_tables (quarter_turn 123456789) false = Ok b /\
    sin_value b = cos_value a /\
    - 1 <= cos_value b + sin_value a <= 0.
Proof.
  split; [exact sample_angles_in_range |].
  split; [exact sample_initial_in_range |].
  split; [intros i _; reflexivity |].
  split; [vm_compute; discriminate |].
  destruct (X13_quarter_turn_exchanges sample_angles sample_initial 123456789 false
              sample_angles_in_range sample_initial_in_range
              (fun i _ => eq_refl) ltac:(vm_compute; discriminate))
    as (st & a & b & _ & _ & Ha & Hb & Hs & Hc).
  exists a, b. auto.
Defined.
